(** * The Counter slice and its store

    A shallow embedding of [src/Redux/CounterSlice.js] (the slice with its
    three case reducers) and of [src/Redux/Store.js] (the store that
    registers the slice reducer under the key ["Counter"]).

    JavaScript numbers are IEEE-754 binary64 values.  They are modelled by
    the Standard Library's executable specification [spec_float], taken at
    precision 53 and maximal exponent 1024, so that [state.value += 1] is
    the rounded addition the engine performs and not addition on
    unbounded integers. *)

From Stdlib Require Import ZArith Lia Bool Strings.Ascii.
From Stdlib Require Import Floats.SpecFloat.
From stdpp Require Import gmap strings list fin_maps.

Local Open Scope Z_scope.

(** ** JavaScript values *)

Module JS.

(** The Number type: binary64. *)
Definition prec : Z := 53.
Definition emax : Z := 1024.

Definition number : Type := spec_float.

Definition NaN : number := S754_nan.
Definition Infinity : number := S754_infinity false.

(** [a + b] on two Numbers (Number::add): round to nearest, ties to even. *)
Definition add (a b : number) : number := SFadd prec emax a b.

(** [a - b] on two Numbers (Number::subtract). *)
Definition sub (a b : number) : number := SFsub prec emax a b.

(** The Number denoted by an integer literal [z]. *)
Definition of_Z (z : Z) : number := binary_normalize prec emax z 0 false.

(** The primitive values that can sit in an action's [payload].
    Strings, objects, symbols and BigInts are left out: [App] passes
    [Number(num)], and the action creators of [increment] and
    [decrement] are called without argument, which leaves the payload
    [undefined]. *)
Inductive primitive : Type :=
| Undefined
| Null
| Bool (b : bool)
| Num (n : number).

(** ToNumber on these primitives. *)
Definition ToNumber (v : primitive) : number :=
  match v with
  | Undefined => NaN
  | Null => of_Z 0
  | Bool true => of_Z 1
  | Bool false => of_Z 0
  | Num n => n
  end.

(** [Number.isInteger]. *)
Definition isInteger (n : number) : bool :=
  match n with
  | S754_zero _ => true
  | S754_finite _ m e =>
      if 0 <=? e then true else Z.pos m mod 2 ^ (- e) =? 0
  | _ => false
  end.

(** The mathematical value of an integral Number. *)
Definition to_Z (n : number) : option Z :=
  match n with
  | S754_zero _ => Some 0
  | S754_finite s m e =>
      if 0 <=? e then Some (cond_Zopp s (Z.pos m * 2 ^ e))
      else if Z.pos m mod 2 ^ (- e) =? 0
           then Some (cond_Zopp s (Z.pos m / 2 ^ (- e)))
           else None
  | _ => None
  end.

(** [Number.MAX_VALUE], the largest finite Number. *)
Definition MAX_VALUE : number := of_Z ((2 ^ 53 - 1) * 2 ^ 971).

(** What [binary_round] hands to the rounding step: the mantissa
    aligned on the target exponent, with the bits shifted out. *)
Definition aligned (m : positive) (e : Z) : shr_record * Z :=
  let '(mz, ez) := shl_align m e (fexp prec emax (Z.pos (digits2_pos m) + e)) in
  shr_fexp prec emax (Z.pos mz) ez loc_Exact.

End JS.


(** ** The slice: [src/Redux/CounterSlice.js] *)

(** The slice state, [{ value: 0 }] initially. *)
Record CounterState : Type := { value : JS.number }.

(** An action as the generated action creators build it:
    [{ type: 'Counter/incrementbyfive', payload: 5 }]. *)
Record Action : Type := { type : string; payload : JS.primitive }.

Module CounterSlice.

Definition name : string := "Counter".

Definition initialState : CounterState := {| value := JS.of_Z 0 |}.

(** [increment: (state) => { state.value += 1; }] *)
Definition increment (state : CounterState) : CounterState :=
  {| value := JS.add (value state) (JS.of_Z 1) |}.

(** [decrement: (state) => { state.value -= 1; }] *)
Definition decrement (state : CounterState) : CounterState :=
  {| value := JS.sub (value state) (JS.of_Z 1) |}.

(** [incrementbyfive: (state, actions) => { state.value += actions.payload; }]
    The left operand is a Number and the payload a non-string primitive,
    so [+] converts the payload with ToNumber and adds. *)
Definition incrementbyfive (state : CounterState) (actions : Action) : CounterState :=
  {| value := JS.add (value state) (JS.ToNumber (payload actions)) |}.

(** The [reducers] field, in source order. *)
Definition reducers : list (string * (CounterState -> Action -> CounterState)) :=
  [ ("increment", fun state _ => increment state);
    ("decrement", fun state _ => decrement state);
    ("incrementbyfive", incrementbyfive) ].

(** The type string [createSlice] gives the case reducer [key]. *)
Definition action_type (key : string) : string := name +:+ "/" +:+ key.

(** [CounterSlice.actions]: one action creator per case reducer.  Called
    without argument they leave [payload] undefined. *)
Module actions.
Definition increment : Action :=
  {| type := action_type "increment"; payload := JS.Undefined |}.
Definition decrement : Action :=
  {| type := action_type "decrement"; payload := JS.Undefined |}.
Definition incrementbyfive (p : JS.primitive) : Action :=
  {| type := action_type "incrementbyfive"; payload := p |}.
End actions.

(** [CounterSlice.reducer]: the case reducer registered for the action's
    type, the state itself for any other type. *)
Definition reducer (state : CounterState) (action : Action) : CounterState :=
  match
    find (fun kr => String.eqb (type action) (action_type (fst kr))) reducers
  with
  | Some kr => snd kr state action
  | None => state
  end.


(** [n] dispatches of the same action in a row. *)
Fixpoint repeat_dispatch (n : nat) (action : Action) (state : CounterState) : CounterState :=
  match n with
  | O => state
  | S k => repeat_dispatch k action (reducer state action)
  end.

End CounterSlice.

(** ** The store: [src/Redux/Store.js]

    [Store] is built by [configureStore] with the single entry
    [Counter: CounterSlicereducer].  [configureStore], [dispatch],
    [getState] and [subscribe] belong to the toolkit and are not part of
    the sources; the container below follows the specification's
    description of them (section 4.1). *)

Module StateContainer.

(** Modelled from the spec: the identity of a namespace-local value, so
    that "referentially unchanged" can be told from "equal".  A value is
    either the one given at construction for a namespace, or the [n]-th
    value returned by a transition. *)
Inductive ref : Type :=
| RInit (ns : string)
| RNew (n : nat).

#[global] Instance ref_eq_dec : EqDecision ref.
Proof. solve_decision. Defined.

(** Modelled from the spec: a [kind] has "the form
    <namespace>/<operation>"; the namespace is "the prefix of [kind]
    before the separator", the operation "the suffix after" it. *)
Fixpoint split_kind (kind : string) : option (string * string) :=
  match kind with
  | EmptyString => None
  | String ch rest =>
      if Ascii.eqb ch "/"%char then Some (EmptyString, rest)
      else match split_kind rest with
           | Some (ns, op) => Some (String ch ns, op)
           | None => None
           end
  end.

Section Container.
Context {V W : Type}.

(** Modelled from the spec: a namespace's slice of the State, a value
    together with its identity. *)
Record slice : Type := { ident : ref; content : V }.

(** Modelled from the spec: the State, "a mapping from a namespace key
    to a namespace-local value". *)
Local Abbreviation State := (gmap string slice).

(** Modelled from the spec: what a transition function hands back, the
    very value it was given or another one.  Only the second "differs
    by reference from the prior value". *)
Inductive returned : Type :=
| Itself
| Another (next : V).

(** Modelled from the spec: a transition function, "(current
    namespace-local state, Action) -> next namespace-local state". *)
Definition transition : Type := V -> Action -> returned.

(** Modelled from the spec: a subscriber, "a callback ... invoked with
    no arguments".  It may read the container through [getState] and
    acts on a world [W] of its own; it does not dispatch. *)
Definition callback : Type := State -> W -> W.

(** Modelled from the spec: the container owns the current State, the
    transition tables (namespace -> kind suffix -> function) and the
    subscribers in registration order, each under the handle its
    unregistration function closes over. *)
Record container : Type := {
  current : State;
  tables : gmap string (gmap string transition);
  subscribers : list (nat * callback);
  next_handle : nat;
  next_ref : nat
}.

(** Modelled from the spec: construction from the initial values and
    the transition tables. *)
Definition create (init : gmap string V)
    (tbls : gmap string (gmap string transition)) : container :=
  {| current := map_imap (fun ns v => Some {| ident := RInit ns; content := v |}) init;
     tables := tbls;
     subscribers := [];
     next_handle := 0;
     next_ref := 0 |}.

(** Modelled from the spec: [getState()] "returns the current State
    snapshot". *)
Definition getState (c : container) : State := current c.

(** Modelled from the spec: the lookup of [dispatch]; an action
    resolves when the namespace has a slice and a table and the table
    has the operation. *)
Definition resolve (c : container) (action : Action)
    : option (string * slice * transition) :=
  match split_kind (type action) with
  | None => None
  | Some (ns, op) =>
      match current c !! ns, tables c !! ns with
      | Some old, Some tbl =>
          match tbl !! op with
          | Some f => Some (ns, old, f)
          | None => None
          end
      | _, _ => None
      end
  end.

(** Modelled from the spec: one notification round, "every currently
    registered subscriber, in registration order".  The handles of the
    callbacks called are recorded next to the world, in call order. *)
Fixpoint notify (subs : list (nat * callback)) (st : State) (w : W)
    : W * list nat :=
  match subs with
  | [] => (w, [])
  | (h, cb) :: rest =>
      let '(w', called) := notify rest st (cb st w) in (w', h :: called)
  end.

(** Modelled from the spec: a resolved transition "replaces that
    namespace's slice in the State with the returned value", a value of a
    new identity; nothing else of the container changes. *)
Definition replace_slice (ns : string) (next : V) (c : container) : container :=
  {| current := <[ns := {| ident := RNew (next_ref c); content := next |}]> (current c);
     tables := tables c;
     subscribers := subscribers c;
     next_handle := next_handle c;
     next_ref := S (next_ref c) |}.

(** Modelled from the spec: [dispatch(action)].  An unresolved action
    is a no-op; a resolved one applies the transition, and when the
    result "differs by reference from the prior value" the slice of
    that namespace is replaced and the subscribers are notified before
    [dispatch] returns.  The result is the container, the world and
    the handles of the subscribers called. *)
Definition dispatch (action : Action) (c : container) (w : W)
    : container * W * list nat :=
  match resolve c action with
  | None => (c, w, [])
  | Some (ns, old, f) =>
      match f (content old) action with
      | Itself => (c, w, [])
      | Another next =>
          let c' := replace_slice ns next c in
          let '(w', called) := notify (subscribers c') (getState c') w in
          (c', w', called)
      end
  end.

(** Modelled from the spec: [subscribe(callback)] "registers
    [callback]; returns an unregistration handle". *)
Definition subscribe (cb : callback) (c : container) : container * nat :=
  ({| current := current c;
      tables := tables c;
      subscribers := subscribers c ++ [(next_handle c, cb)];
      next_handle := S (next_handle c);
      next_ref := next_ref c |},
   next_handle c).

(** Modelled from the spec: the unregistration function "removes
    [callback]; if called more than once, subsequent calls are
    no-ops". *)
Definition unsubscribe (h : nat) (c : container) : container :=
  {| current := current c;
     tables := tables c;
     subscribers := filter (fun s => fst s <> h) (subscribers c);
     next_handle := next_handle c;
     next_ref := next_ref c |}.

(** Registering a list of callbacks one after the other; the handles
    come back in the order of the registrations. *)
Fixpoint subscribe_each (cbs : list callback) (c : container) : container * list nat :=
  match cbs with
  | [] => (c, [])
  | cb :: rest =>
      let '(c1, h) := subscribe cb c in
      let '(c2, hs) := subscribe_each rest c1 in
      (c2, h :: hs)
  end.

(** A caller of the container: the three operations of its interface
    ([getState] has no effect and is left out). *)
Inductive call : Type :=
| CallDispatch (action : Action)
| CallSubscribe (cb : callback)
| CallUnsubscribe (h : nat).

Definition perform (cw : container * W) (k : call) : container * W :=
  match k with
  | CallDispatch action =>
      let '(c', w', _) := dispatch action (fst cw) (snd cw) in (c', w')
  | CallSubscribe cb => (fst (subscribe cb (fst cw)), snd cw)
  | CallUnsubscribe h => (unsubscribe h (fst cw), snd cw)
  end.

Definition perform_all (ks : list call) (cw : container * W) : container * W :=
  foldl perform cw ks.

(** The handles currently registered, in registration order. *)
Definition handles (c : container) : list nat := fst <$> subscribers c.

(** The registration [h] was issued and is no longer registered. *)
Definition retired (h : nat) (c : container) : Prop :=
  (h < next_handle c)%nat /\ h ∉ handles c.

(** Modelled from the spec: a dispatch is successful when the action
    resolves and the transition returns another value. *)
Definition successful (action : Action) (c : container) : Prop :=
  exists ns old f next,
    resolve c action = Some (ns, old, f) /\ f (content old) action = Another next.

End Container.

Abbreviation State V := (gmap string (@slice V)).

Arguments slice : clear implicits.
Arguments returned : clear implicits.
Arguments transition : clear implicits.
Arguments callback : clear implicits.
Arguments container : clear implicits.
Arguments call : clear implicits.

End StateContainer.

(** Modelled from the spec: the transition table of the namespace, "kind
    suffix -> transition function"; the slice's case reducers, each
    "returning a new value". *)
Definition CounterTable : gmap string (StateContainer.transition CounterState) :=
  list_to_map
    (map (fun kr => (fst kr, fun state action => StateContainer.Another (snd kr state action)))
         CounterSlice.reducers).

(** Modelled from the spec: the container of [Store.js], with the one
    namespace ["Counter"] and the slice's initial state. *)
Definition Store {W : Type} : StateContainer.container CounterState W :=
  StateContainer.create
    {[ "Counter" := CounterSlice.initialState ]}
    {[ "Counter" := CounterTable ]}.

(** Two subscribers that each append their own mark to a log. *)
Definition loggers : list (StateContainer.callback CounterState (list nat)) :=
  [ (fun _ log => log ++ [1%nat]); (fun _ log => log ++ [2%nat]) ].


(** ** Sequences of actions *)

(** The actions of a list dispatched one after the other on the slice. *)
Definition reduce_all (actions : list Action) (state : CounterState) : CounterState :=
  foldl CounterSlice.reducer state actions.

(** [Number.isFinite]. *)
Definition isFinite (n : JS.number) : bool :=
  match n with
  | S754_zero _ | S754_finite _ _ _ => true
  | _ => false
  end.

(** A Number the engine can hold (a binary64 value in canonical form)
    that is an integer. *)
Definition integerNumber (n : JS.number) : bool :=
  valid_binary JS.prec JS.emax n && JS.isInteger n.

(** ** The component: [src/App.jsx] *)

Module App.

(** The state of the store of [Store.js]: the reducer map
    [{ Counter: CounterSlicereducer }] gives it the single key [Counter]. *)
Record RootState : Type := { Counter : CounterState }.

(** The root reducer of that map: every action goes to the slice reducer
    of the key. *)
Definition rootReducer (state : RootState) (action : Action) : RootState :=
  {| Counter := CounterSlice.reducer (Counter state) action |}.

(** The state the store starts from, the slice's [initialState]. *)
Definition preloadedState : RootState := {| Counter := CounterSlice.initialState |}.

(** [const count = useSelector((state) => state.Counter.value);] *)
Definition count (state : RootState) : JS.number := value (Counter state).

(** The three buttons.  The third carries [Number(num)], the Number the
    input field converts to. *)
Inductive button : Type :=
| Increment
| Decrement
| IncrementBy (num : JS.number).

(** The action each [onClick] handler dispatches:
    [dispatch(increment())], [dispatch(decrement())] and
    [dispatch(incrementbyfive(Number(num)))]. *)
Definition onClick (b : button) : Action :=
  match b with
  | Increment => CounterSlice.actions.increment
  | Decrement => CounterSlice.actions.decrement
  | IncrementBy num => CounterSlice.actions.incrementbyfive (JS.Num num)
  end.

(** The store state after a series of clicks. *)
Definition clicks (bs : list button) (state : RootState) : RootState :=
  foldl (fun st b => rootReducer st (onClick b)) state bs.

(** The integer a click adds to the count, when there is one. *)
Definition amount (b : button) : option Z :=
  match b with
  | Increment => Some 1
  | Decrement => Some (-1)
  | IncrementBy num => JS.to_Z num
  end.

(** The sum of the amounts of a series of clicks, and the sum of their
    magnitudes; [None] when a click has no integer amount. *)
Fixpoint total (bs : list button) : option Z :=
  match bs with
  | [] => Some 0
  | b :: rest =>
      match amount b, total rest with
      | Some k, Some t => Some (k + t)
      | _, _ => None
      end
  end.

Fixpoint reach (bs : list button) : option Z :=
  match bs with
  | [] => Some 0
  | b :: rest =>
      match amount b, reach rest with
      | Some k, Some t => Some (Z.abs k + t)
      | _, _ => None
      end
  end.

End App.

(** ** Binary64 rounding facts *)

Module Binary64.
Import JS.

Lemma digits2_pos_size (m : positive) : digits2_pos m = Pos.size m.
Proof. induction m as [m IH|m IH|]; simpl; congruence. Qed.

Lemma Zdigits2_log2 (m : positive) :
  Z.pos (digits2_pos m) = Z.log2 (Z.pos m) + 1.
Proof.
  rewrite digits2_pos_size.
  destruct m as [m|m|]; simpl; try reflexivity; lia.
Qed.

Lemma Zdigits2_shift (m : positive) (k : Z) :
  0 <= k -> Zdigits2 (Z.pos m * 2 ^ k) = Zdigits2 (Z.pos m) + k.
Proof.
  intros Hk.
  assert (Hp : 0 < Z.pos m * 2 ^ k) by (apply Z.mul_pos_pos; [lia | apply Z.pow_pos_nonneg; lia]).
  destruct (Z.pos m * 2 ^ k) as [|q|q] eqn:Hq; try lia.
  simpl. rewrite !Zdigits2_log2, <- Hq.
  rewrite Z.log2_mul_pow2 by lia. lia.
Qed.

Lemma iter_pos_iter {A : Type} (f : A -> A) (p : positive) (x : A) :
  SpecFloat.iter_pos f p x = Pos.iter f x p.
Proof.
  revert x. induction p as [p IH|p IH|]; intros x; simpl.
  - rewrite !IH, !Pos.iter_swap. reflexivity.
  - rewrite !IH. reflexivity.
  - reflexivity.
Qed.

Local Abbreviation exact m := {| shr_m := m; shr_r := false; shr_s := false |}.

Lemma shr_1_double (M : Z) : shr_1 (exact (2 * M)) = exact M.
Proof. destruct M; reflexivity. Qed.

Lemma iter_shr_1_exact (p : positive) (M : Z) :
  Pos.iter shr_1 (exact (M * 2 ^ Z.pos p)) p = exact M.
Proof.
  revert M. induction p as [|p IH] using Pos.peano_ind; intros M.
  - simpl Pos.iter. replace (M * 2 ^ 1) with (2 * M) by lia.
    apply shr_1_double.
  - rewrite Pos.iter_succ.
    replace (M * 2 ^ Z.pos (Pos.succ p)) with ((2 * M) * 2 ^ Z.pos p).
    + rewrite IH. apply shr_1_double.
    + rewrite Pos2Z.inj_succ, Z.pow_succ_r by lia. lia.
Qed.

(** Shifting out [k] zero bits first is the same as starting [k]
    binades higher. *)
Lemma shr_scaled (M e n k : Z) :
  0 <= k -> 0 <= n ->
  shr (exact (M * 2 ^ k)) e (n + k) = shr (exact M) (e + k) n.
Proof.
  intros Hk Hn. unfold shr.
  destruct k as [|k|k]; [| |lia].
  - rewrite Z.add_0_r, Z.pow_0_r, Z.mul_1_r, Z.add_0_r. reflexivity.
  - destruct n as [|n|n]; [| |lia].
    + change (0 + Z.pos k) with (Z.pos k). cbv iota beta.
      rewrite iter_pos_iter, iter_shr_1_exact. reflexivity.
    + change (Z.pos n + Z.pos k) with (Z.pos (n + k)).
      rewrite !iter_pos_iter, Pos.iter_add, iter_shr_1_exact.
      f_equal. lia.
Qed.

Lemma iter_xO (m d : positive) :
  Z.pos (Pos.iter xO m d) = Z.pos m * 2 ^ Z.pos d.
Proof.
  induction d as [|d IH] using Pos.peano_ind.
  - simpl. lia.
  - rewrite Pos.iter_succ, Pos2Z.inj_xO, IH, Pos2Z.inj_succ, Z.pow_succ_r by lia.
    lia.
Qed.

Lemma aligned_spec (m : positive) (e : Z) :
  let t := fexp prec emax (Z.pos (digits2_pos m) + e) in
  aligned m e =
    if t <? e then (exact (Z.pos m * 2 ^ (e - t)), t)
    else shr (exact (Z.pos m)) e (t - e).
Proof.
  intros t. unfold aligned. fold t. unfold shl_align.
  destruct (Z.ltb_spec t e) as [Hlt|Hge].
  - destruct (t - e) as [|d|d] eqn:Hd; try lia.
    unfold shr_fexp. simpl shr_record_of_loc.
    assert (Hm : Z.pos (Pos.iter xO m d) = Z.pos m * 2 ^ (e - t)).
    { rewrite iter_xO. f_equal. f_equal. lia. }
    rewrite Hm.
    assert (Hdig : Zdigits2 (Z.pos m * 2 ^ (e - t)) + t = Z.pos (digits2_pos m) + e).
    { rewrite Zdigits2_shift by lia. simpl. lia. }
    rewrite Hdig. fold t. rewrite Z.sub_diag. reflexivity.
  - destruct (t - e) as [|d|d] eqn:Hd; try lia.
    + unfold shr_fexp. simpl Zdigits2. fold t. rewrite Hd. reflexivity.
    + unfold shr_fexp. simpl Zdigits2. fold t. rewrite Hd. reflexivity.
Qed.

Lemma aligned_scale (m q : positive) (e k : Z) :
  0 <= k -> Z.pos q = Z.pos m * 2 ^ k ->
  aligned q e = aligned m (e + k).
Proof.
  intros Hk Hq. rewrite !aligned_spec. cbv zeta.
  assert (Hd : Z.pos (digits2_pos q) + e = Z.pos (digits2_pos m) + (e + k)).
  { change (Z.pos (digits2_pos q)) with (Zdigits2 (Z.pos q)).
    rewrite Hq, Zdigits2_shift by lia. simpl. lia. }
  rewrite Hd. set (t := fexp prec emax (Z.pos (digits2_pos m) + (e + k))).
  rewrite Hq.
  destruct (Z.ltb_spec t e) as [H1|H1]; destruct (Z.ltb_spec t (e + k)) as [H2|H2];
    try lia.
  - rewrite <- Z.mul_assoc, <- Z.pow_add_r by lia.
    replace (k + (e - t)) with (e + k - t) by lia. reflexivity.
  - replace (Z.pos m * 2 ^ k) with (Z.pos m * 2 ^ (e + k - t) * 2 ^ (t - e)).
    + replace (t - e) with (0 + (t - e)) at 2 by lia.
      rewrite shr_scaled by lia. simpl. f_equal. lia.
    + rewrite <- Z.mul_assoc, <- Z.pow_add_r by lia.
      replace (e + k - t + (t - e)) with k by lia. reflexivity.
  - replace (t - e) with ((t - (e + k)) + k) by lia.
    apply shr_scaled; lia.
Qed.

Lemma binary_round_aligned (s : bool) (m : positive) (e : Z) :
  binary_round prec emax s m e =
    let '(mrs', e') := aligned m e in
    let '(mrs'', e'') :=
      shr_fexp prec emax
        (round_nearest_even (shr_m mrs') (loc_of_shr_record mrs')) e' loc_Exact in
    match shr_m mrs'' with
    | Z0 => S754_zero s
    | Z.pos n =>
        if e'' <=? emax - prec then S754_finite s n e'' else S754_infinity s
    | Z.neg _ => S754_nan
    end.
Proof.
  unfold binary_round, aligned, binary_round_aux.
  destruct (shl_align m e _) as [mz ez]. reflexivity.
Qed.

Lemma binary_round_scale (s : bool) (m q : positive) (e k : Z) :
  0 <= k -> Z.pos q = Z.pos m * 2 ^ k ->
  binary_round prec emax s q e = binary_round prec emax s m (e + k).
Proof.
  intros Hk Hq. rewrite !binary_round_aligned, (aligned_scale m q e k Hk Hq).
  reflexivity.
Qed.

(** Rounding sees the real value only: [z * 2^k] at exponent [e] and [z]
    at exponent [e + k] round to the same Number. *)
Lemma binary_normalize_scale (z e k : Z) (sz : bool) :
  0 <= k ->
  binary_normalize prec emax (z * 2 ^ k) e sz = binary_normalize prec emax z (e + k) sz.
Proof.
  intros Hk.
  assert (Hpow : 0 < 2 ^ k) by (apply Z.pow_pos_nonneg; lia).
  destruct z as [|m|m].
  - reflexivity.
  - destruct (Z.pos m * 2 ^ k) as [|q|q] eqn:Hq; try lia.
    simpl. apply binary_round_scale with (k := k); [lia | congruence].
  - destruct (Z.neg m * 2 ^ k) as [|q|q] eqn:Hq; try lia.
    simpl. apply binary_round_scale with (k := k); [lia | lia].
Qed.

(** *** Integers that are Numbers *)

Lemma digits_le_prec (m : positive) :
  Z.pos m < 2 ^ prec -> Z.pos (digits2_pos m) <= prec.
Proof.
  intros H. rewrite Zdigits2_log2.
  apply Z.log2_lt_pow2 in H; unfold prec in *; lia.
Qed.

(** A mantissa of at most 53 bits at a non-negative exponent is kept as
    it is, normalised to 53 bits. *)
Lemma binary_round_small (s : bool) (m M : positive) (e : Z) :
  let d := Z.pos (digits2_pos m) in
  d <= prec -> 0 <= e <= emax - prec ->
  Z.pos M = Z.pos m * 2 ^ (prec - d) ->
  binary_round prec emax s m e = S754_finite s M (e + d - prec).
Proof.
  intros d Hd He HM. rewrite binary_round_aligned, aligned_spec. cbv zeta.
  fold d.
  assert (Ht : fexp prec emax (d + e) = e + d - prec).
  { unfold fexp, emin, prec, emax in *. lia. }
  rewrite Ht.
  assert (Hal : (if e + d - prec <? e
                 then (exact (Z.pos m * 2 ^ (e - (e + d - prec))), e + d - prec)
                 else shr (exact (Z.pos m)) e (e + d - prec - e))
                = (exact (Z.pos M), e + d - prec)).
  { destruct (Z.ltb_spec (e + d - prec) e) as [Hlt|Hge].
    - rewrite HM. replace (e - (e + d - prec)) with (prec - d) by lia.
      reflexivity.
    - assert (d = prec) by lia.
      replace (e + d - prec - e) with 0 by lia. unfold shr.
      rewrite HM. replace (prec - d) with 0 by lia.
      rewrite Z.pow_0_r, Z.mul_1_r. f_equal. lia. }
  rewrite Hal. cbn [shr_m loc_of_shr_record round_nearest_even].
  unfold shr_fexp. cbn [shr_record_of_loc].
  assert (Hdig : Zdigits2 (Z.pos M) + (e + d - prec) = d + e).
  { rewrite HM, Zdigits2_shift by lia. simpl Zdigits2. fold d. lia. }
  rewrite Hdig, Ht, Z.sub_diag. cbn [shr shr_m].
  destruct (Z.leb_spec (e + d - prec) (emax - prec)); [reflexivity | lia].
Qed.

Lemma pow2_pos (k : Z) : 0 <= k -> 0 < 2 ^ k.
Proof. intros. apply Z.pow_pos_nonneg; lia. Qed.

Lemma to_Z_round (s : bool) (m : positive) (e : Z) :
  Z.pos m < 2 ^ prec -> 0 <= e <= emax - prec ->
  to_Z (binary_round prec emax s m e) = Some (cond_Zopp s (Z.pos m * 2 ^ e)).
Proof.
  intros Hm He. pose proof (digits_le_prec m Hm) as Hd.
  set (d := Z.pos (digits2_pos m)) in *.
  assert (Hpos : 0 < Z.pos m * 2 ^ (prec - d))
    by (apply Z.mul_pos_pos; [lia | apply pow2_pos; lia]).
  destruct (Z.pos m * 2 ^ (prec - d)) as [|M|M] eqn:HM; try lia.
  rewrite (binary_round_small s m M e) by (fold d; auto).
  fold d. unfold to_Z.
  destruct (Z.leb_spec 0 (e + d - prec)) as [H0|H0].
  - rewrite <- HM, <- Z.mul_assoc, <- Z.pow_add_r by lia.
    replace (prec - d + (e + d - prec)) with e by lia. reflexivity.
  - assert (Hsplit : Z.pos M = (Z.pos m * 2 ^ e) * 2 ^ (- (e + d - prec))).
    { rewrite <- HM, <- Z.mul_assoc, <- Z.pow_add_r by lia.
      do 2 f_equal. lia. }
    assert (Hnz : 2 ^ (- (e + d - prec)) <> 0)
      by (pose proof (pow2_pos (- (e + d - prec))); lia).
    rewrite Hsplit, Z.mod_mul, Z.div_mul by exact Hnz.
    reflexivity.
Qed.

(** Every integer [m * 2^j] with [|m| < 2^53] and [0 <= j <= 971] is a
    Number: the literal denotes it exactly. *)
Lemma to_Z_of_Z_scaled (m j : Z) :
  Z.abs m < 2 ^ prec -> 0 <= j <= emax - prec ->
  to_Z (of_Z (m * 2 ^ j)) = Some (m * 2 ^ j).
Proof.
  intros Hm Hj. unfold of_Z. rewrite binary_normalize_scale by lia.
  destruct m as [|q|q]; simpl binary_normalize.
  - reflexivity.
  - rewrite to_Z_round by (simpl in *; lia). reflexivity.
  - rewrite to_Z_round by (simpl in *; lia). simpl cond_Zopp.
    change (Z.neg q) with (- Z.pos q). rewrite Z.mul_opp_l. reflexivity.
Qed.

Lemma to_Z_of_Z (z : Z) : Z.abs z <= 2 ^ prec -> to_Z (of_Z z) = Some z.
Proof.
  intros Hz. destruct (Z.eq_dec (Z.abs z) (2 ^ prec)) as [Heq|Hne].
  - assert (Hc : z = 2 ^ prec \/ z = - 2 ^ prec) by lia.
    destruct Hc as [-> | ->]; vm_compute; reflexivity.
  - replace z with (z * 2 ^ 0) by (rewrite Z.pow_0_r; lia).
    apply to_Z_of_Z_scaled; unfold emax, prec in *; lia.
Qed.

(** *** Addition of integral Numbers *)

Lemma shl_align_fst (m : positive) (e ez : Z) :
  ez <= e -> Z.pos (fst (shl_align m e ez)) = Z.pos m * 2 ^ (e - ez).
Proof.
  intros H. unfold shl_align.
  destruct (ez - e) as [|d|d] eqn:Hd; try lia.
  - replace (e - ez) with 0 by lia. simpl fst. lia.
  - simpl fst. rewrite iter_xO. do 2 f_equal. lia.
Qed.

Lemma cond_Zopp_mul (s : bool) (a b : Z) :
  cond_Zopp s a * b = cond_Zopp s (a * b).
Proof. destruct s; simpl; [apply Z.mul_opp_l | reflexivity]. Qed.

(** The mantissa of an integral Number, aligned on an exponent [ez]
    below its own, against its integer value. *)
Lemma to_Z_aligned (s : bool) (m : positive) (e ez a : Z) :
  to_Z (S754_finite s m e) = Some a -> ez <= e ->
  cond_Zopp s (Z.pos m * 2 ^ (e - ez)) * 2 ^ Z.max ez 0 = a * 2 ^ Z.max (- ez) 0.
Proof.
  unfold to_Z. intros Ha Hez.
  destruct (Z.leb_spec 0 e) as [He|He].
  - injection Ha as <-. rewrite !cond_Zopp_mul. f_equal.
    rewrite <- !Z.mul_assoc, <- !Z.pow_add_r by lia. do 2 f_equal. lia.
  - destruct (Z.eqb_spec (Z.pos m mod 2 ^ (- e)) 0) as [Hmod|Hmod]; [|discriminate].
    injection Ha as <-. rewrite !cond_Zopp_mul. f_equal.
    assert (Hnz : 2 ^ (- e) <> 0) by (pose proof (pow2_pos (- e)); lia).
    rewrite (Z.div_mod (Z.pos m) (2 ^ (- e)) Hnz) at 1.
    rewrite Hmod, Z.add_0_r.
    replace (Z.max ez 0) with 0 by lia. replace (Z.max (- ez) 0) with (- ez) by lia.
    rewrite Z.pow_0_r, Z.mul_1_r.
    rewrite (Z.mul_comm (2 ^ (- e))), <- Z.mul_assoc, <- Z.pow_add_r by lia.
    do 2 f_equal. lia.
Qed.

(** On two finite integral Numbers, [+] is the literal of the exact
    sum: one rounding of the integer [a + b]. *)
Lemma add_finite_of_Z (sx sy : bool) (mx my : positive) (ex ey a b : Z) :
  to_Z (S754_finite sx mx ex) = Some a ->
  to_Z (S754_finite sy my ey) = Some b ->
  add (S754_finite sx mx ex) (S754_finite sy my ey) = of_Z (a + b).
Proof.
  intros Ha Hb. unfold add, SFadd, of_Z.
  set (ez := Z.min ex ey).
  rewrite !shl_align_fst by lia.
  pose proof (to_Z_aligned sx mx ex ez a Ha ltac:(lia)) as HA.
  pose proof (to_Z_aligned sy my ey ez b Hb ltac:(lia)) as HB.
  set (A := cond_Zopp sx (Z.pos mx * 2 ^ (ex - ez))) in *.
  set (B := cond_Zopp sy (Z.pos my * 2 ^ (ey - ez))) in *.
  destruct (Z.le_gt_cases 0 ez) as [Hez|Hez].
  - replace (Z.max ez 0) with ez in * by lia.
    replace (Z.max (- ez) 0) with 0 in * by lia.
    rewrite Z.pow_0_r, Z.mul_1_r in HA, HB.
    rewrite <- HA, <- HB, <- Z.mul_add_distr_r.
    rewrite binary_normalize_scale by lia. reflexivity.
  - replace (Z.max ez 0) with 0 in * by lia.
    replace (Z.max (- ez) 0) with (- ez) in * by lia.
    rewrite Z.pow_0_r, Z.mul_1_r in HA, HB.
    rewrite HA, HB, <- Z.mul_add_distr_r.
    rewrite binary_normalize_scale by lia. f_equal. lia.
Qed.

Lemma to_Z_zero (s : bool) (a : Z) : to_Z (S754_zero s) = Some a -> a = 0.
Proof. simpl. congruence. Qed.

(** [a + b] on integral Numbers is exact whenever the sum is a Number. *)
Lemma to_Z_add (x y : number) (a b : Z) :
  to_Z x = Some a -> to_Z y = Some b ->
  to_Z (of_Z (a + b)) = Some (a + b) ->
  to_Z (add x y) = Some (a + b).
Proof.
  intros Ha Hb Hab.
  destruct x as [sx|sx| |sx mx ex]; try discriminate;
    destruct y as [sy|sy| |sy my ey]; try discriminate.
  - apply to_Z_zero in Ha, Hb. subst.
    destruct sx, sy; reflexivity.
  - apply to_Z_zero in Ha. subst. exact Hb.
  - apply to_Z_zero in Hb. subst. rewrite Z.add_0_r. exact Ha.
  - rewrite (add_finite_of_Z _ _ _ _ _ _ a b Ha Hb). exact Hab.
Qed.

(** *** Subtraction *)

Lemma sub_add_opp (x y : number) : sub x y = add x (SFopp y).
Proof.
  destruct x as [sx|sx| |sx mx ex]; destruct y as [sy|sy| |sy my ey];
    try reflexivity;
    try (destruct sx, sy; reflexivity).
Qed.

Lemma to_Z_opp (y : number) (b : Z) :
  to_Z y = Some b -> to_Z (SFopp y) = Some (- b).
Proof.
  destruct y as [sy|sy| |sy my ey]; try discriminate; simpl.
  - intros [= <-]. reflexivity.
  - destruct (0 <=? ey).
    + intros [= <-]. destruct sy; simpl; f_equal; lia.
    + destruct (Z.pos my mod 2 ^ (- ey) =? 0); [|discriminate].
      intros [= <-]. destruct sy; simpl; f_equal; lia.
Qed.

Lemma to_Z_sub (x y : number) (a b : Z) :
  to_Z x = Some a -> to_Z y = Some b ->
  to_Z (of_Z (a - b)) = Some (a - b) ->
  to_Z (sub x y) = Some (a - b).
Proof.
  intros Ha Hb Hab. rewrite sub_add_opp.
  apply (to_Z_add x (SFopp y) a (- b)); auto using to_Z_opp.
Qed.

(** *** Integral results in general *)

Lemma isInteger_to_Z (n : number) : isInteger n = true <-> is_Some (to_Z n).
Proof.
  destruct n as [s|s| |s m e]; simpl; split; intros H;
    try discriminate; try (destruct H; discriminate); eauto.
  - destruct (0 <=? e); eauto. rewrite H. eauto.
  - destruct (0 <=? e); auto.
    destruct (Z.pos m mod 2 ^ (- e) =? 0); auto. destruct H; discriminate.
Qed.

Lemma shr_1_nonneg (r : shr_record) : 0 <= shr_m r -> 0 <= shr_m (shr_1 r).
Proof.
  destruct r as [m r s]. simpl. intros H.
  destruct m as [|[p|p|]|p]; simpl; lia.
Qed.

Lemma shr_nonneg (r : shr_record) (e n : Z) :
  0 <= shr_m r -> 0 <= shr_m (fst (shr r e n)).
Proof.
  intros H. unfold shr. destruct n as [|p|p]; simpl; auto.
  rewrite iter_pos_iter.
  apply Pos.iter_invariant; auto using shr_1_nonneg.
Qed.

Lemma shr_exponent (r : shr_record) (e n : Z) :
  snd (shr r e n) = e + Z.max n 0.
Proof. unfold shr. destruct n; simpl; lia. Qed.

Lemma round_nearest_even_nonneg (m : Z) (l : location) :
  0 <= m -> 0 <= round_nearest_even m l.
Proof.
  intros H. destruct l as [|[]]; simpl; try lia.
  destruct (Z.even m); lia.
Qed.

(** Above [2^53] the rounded result sits at a non-negative exponent,
    whatever was shifted out. *)
Lemma binary_round_large (s : bool) (m : positive) (e : Z) :
  let t := fexp prec emax (Z.pos (digits2_pos m) + e) in
  e <= t ->
  match binary_round prec emax s m e with
  | S754_finite _ _ e'' => t <= e''
  | S754_nan => False
  | _ => True
  end.
Proof.
  intros t Het. rewrite binary_round_aligned, aligned_spec. cbv zeta. fold t.
  destruct (Z.ltb_spec t e) as [Hlt|_]; [lia|].
  pose proof (shr_exponent (exact (Z.pos m)) e (t - e)) as He'.
  pose proof (shr_nonneg (exact (Z.pos m)) e (t - e) ltac:(simpl; lia)) as Hm'.
  destruct (shr (exact (Z.pos m)) e (t - e)) as [mrs' e']. simpl in He', Hm'.
  set (m1 := round_nearest_even (shr_m mrs') (loc_of_shr_record mrs')).
  assert (Hm1 : 0 <= m1) by (apply round_nearest_even_nonneg; exact Hm').
  unfold shr_fexp. cbn [shr_record_of_loc].
  set (n2 := fexp prec emax (Zdigits2 m1 + e') - e').
  pose proof (shr_exponent (exact m1) e' n2) as He''.
  pose proof (shr_nonneg (exact m1) e' n2 ltac:(simpl; lia)) as Hm''.
  destruct (shr (exact m1) e' n2) as [mrs'' e'']. simpl in He'', Hm''.
  destruct (shr_m mrs'') as [|q|q]; try lia; auto.
  destruct (e'' <=? emax - prec); auto. lia.
Qed.

(** The literal of any integer is an integral Number, or an infinity
    when the integer is beyond the largest Number. *)
Lemma of_Z_integral (z : Z) :
  isInteger (of_Z z) = true \/ exists s, of_Z z = S754_infinity s.
Proof.
  assert (Hpos : forall s m,
    isInteger (binary_round prec emax s m 0) = true \/
    exists s', binary_round prec emax s m 0 = S754_infinity s').
  { intros s m. destruct (Z.lt_ge_cases (Z.pos m) (2 ^ prec)) as [Hlt|Hge].
    - left. apply isInteger_to_Z.
      rewrite to_Z_round by (unfold emax, prec in *; lia). eauto.
    - pose proof (binary_round_large s m 0) as Hl. cbv zeta in Hl.
      assert (Ht : 0 <= fexp prec emax (Z.pos (digits2_pos m) + 0)).
      { rewrite Zdigits2_log2.
        assert (prec <= Z.log2 (Z.pos m)) by (apply Z.log2_le_pow2; unfold prec in *; lia).
        unfold fexp, emin, prec, emax in *. lia. }
      specialize (Hl Ht).
      destruct (binary_round prec emax s m 0) as [s'|s'| |s' m' e'];
        simpl; eauto; try contradiction.
      left. destruct (Z.leb_spec 0 e'); [reflexivity | lia]. }
  destruct z as [|m|m]; simpl; auto.
Qed.

(** *** No overflow next to a Number *)

Lemma shr_1_m (r : shr_record) : 0 <= shr_m r -> shr_m (shr_1 r) = shr_m r / 2.
Proof.
  destruct r as [m r s]. cbn [shr_m]. intros H. rewrite <- Z.div2_div.
  destruct m as [|[p|p|]|p]; try reflexivity. lia.
Qed.

Lemma iter_shr_1_m (p : positive) (r : shr_record) :
  0 <= shr_m r -> shr_m (Pos.iter shr_1 r p) = shr_m r / 2 ^ Z.pos p.
Proof.
  intros H. induction p as [|p IH] using Pos.peano_ind.
  - simpl Pos.iter. rewrite shr_1_m by exact H. reflexivity.
  - rewrite Pos.iter_succ, shr_1_m, IH.
    + rewrite Z.div_div by (try apply pow2_pos; lia).
      rewrite Pos2Z.inj_succ, Z.pow_succ_r by lia. f_equal. lia.
    + apply Pos.iter_invariant; auto using shr_1_nonneg.
Qed.

Lemma round_nearest_even_le (m : Z) (l : location) : round_nearest_even m l <= m + 1.
Proof. destruct l as [|[]]; simpl; try lia. destruct (Z.even m); lia. Qed.

Lemma Zdigits2_le (m k : Z) : 0 <= m < 2 ^ k -> 0 <= k -> Zdigits2 m <= k.
Proof.
  intros [H0 Hk] Hk0. destruct m as [|q|q]; [simpl; lia| |lia].
  change (Zdigits2 (Z.pos q)) with (Z.pos (digits2_pos q)). rewrite Zdigits2_log2.
  assert (Z.log2 (Z.pos q) < k) by (apply Z.log2_lt_pow2; lia). lia.
Qed.

(** The largest Number, as an integer. *)
Local Abbreviation top := ((2 ^ 53 - 1) * 2 ^ 971).

(** Between [2^53] and the largest Number, rounding does not reach the
    infinities. *)
Lemma binary_round_below_top (s : bool) (m : positive) :
  2 ^ 53 <= Z.pos m < top ->
  forall s', binary_round prec emax s m 0 <> S754_infinity s'.
Proof.
  intros [Hlo Hhi] s'.
  set (d := Z.pos (digits2_pos m)).
  assert (Hd : 54 <= d <= 1024).
  { unfold d. rewrite Zdigits2_log2.
    assert (53 <= Z.log2 (Z.pos m)) by (apply Z.log2_le_pow2; lia).
    assert (Z.log2 (Z.pos m) < 1024).
    { apply Z.log2_lt_pow2; [lia|].
      eapply Z.lt_le_trans; [exact Hhi|].
      replace (2 ^ 1024) with (2 ^ 53 * 2 ^ 971) by (rewrite <- Z.pow_add_r; [reflexivity|lia|lia]).
      pose proof (pow2_pos 971). nia. }
    lia. }
  assert (Hm : Z.pos m < 2 ^ d).
  { unfold d. rewrite Zdigits2_log2.
    pose proof (Z.log2_spec (Z.pos m) ltac:(lia)) as [_ Hs].
    replace (Z.log2 (Z.pos m) + 1) with (Z.succ (Z.log2 (Z.pos m))) by lia.
    exact Hs. }
  rewrite binary_round_aligned, aligned_spec. cbv zeta. fold d.
  assert (Ht : fexp prec emax (d + 0) = d - 53)
    by (unfold fexp, emin, prec, emax; lia).
  rewrite Ht. set (t := d - 53) in *.
  destruct (Z.ltb_spec t 0) as [Hneg|_]; [lia|].
  rewrite Z.sub_0_r.
  destruct t as [|p|p] eqn:Hp; try lia.
  unfold shr. rewrite iter_pos_iter.
  pose proof (iter_shr_1_m p (exact (Z.pos m)) ltac:(simpl; lia)) as Hm'.
  pose proof (shr_nonneg (exact (Z.pos m)) 0 (Z.pos p) ltac:(simpl; lia)) as Hm0.
  unfold shr in Hm0. rewrite iter_pos_iter in Hm0. cbn [fst shr_m] in Hm0, Hm'.
  set (mrs' := Pos.iter shr_1 (exact (Z.pos m)) p) in *.
  set (m1 := round_nearest_even (shr_m mrs') (loc_of_shr_record mrs')).
  assert (Hm1 : 0 <= m1 < 2 ^ (if Z.pos p =? 971 then 53 else 54)).
  { split; [apply round_nearest_even_nonneg; exact Hm0|].
    pose proof (round_nearest_even_le (shr_m mrs') (loc_of_shr_record mrs')) as Hle.
    fold m1 in Hle. pose proof (pow2_pos (Z.pos p) ltac:(lia)) as Hpp.
    destruct (Z.eqb_spec (Z.pos p) 971) as [E|E].
    - assert (shr_m mrs' < 2 ^ 53 - 1); [|lia].
      rewrite Hm'. apply Z.div_lt_upper_bound; [lia|].
      rewrite E, Z.mul_comm. exact Hhi.
    - assert (shr_m mrs' < 2 ^ 53); [|lia].
      rewrite Hm'. apply Z.div_lt_upper_bound; [lia|].
      rewrite <- Z.pow_add_r by lia.
      replace (Z.pos p + 53) with d by lia. exact Hm. }
  unfold shr_fexp. cbn [shr_record_of_loc].
  set (n2 := fexp prec emax (Zdigits2 m1 + (0 + Z.pos p)) - (0 + Z.pos p)).
  pose proof (shr_exponent (exact m1) (0 + Z.pos p) n2) as He''.
  pose proof (shr_nonneg (exact m1) (0 + Z.pos p) n2 ltac:(simpl; lia)) as Hm''.
  assert (Hn2 : 0 + Z.pos p + Z.max n2 0 <= 971).
  { pose proof (Zdigits2_le m1 _ Hm1 ltac:(destruct (Z.pos p =? 971); lia)) as Hdig.
    unfold n2, fexp, emin, prec, emax.
    destruct (Z.eqb_spec (Z.pos p) 971); lia. }
  destruct (shr (exact m1) (0 + Z.pos p) n2) as [mrs'' e'']. cbn [fst snd] in *.
  destruct (shr_m mrs'') as [|q|q]; try discriminate.
  destruct (Z.leb_spec e'' (emax - prec)); [discriminate|].
  unfold emax, prec in *. lia.
Qed.

(** The literal of an integer no larger than the largest Number plus one
    is finite. *)
Lemma of_Z_no_overflow (z : Z) :
  Z.abs z <= top + 1 -> forall s, of_Z z <> S754_infinity s.
Proof.
  intros Hz s.
  destruct (Z.le_gt_cases (Z.abs z) (2 ^ 53)) as [Hsmall|Hbig].
  - pose proof (to_Z_of_Z z Hsmall) as Hto. intros E. rewrite E in Hto. discriminate.
  - destruct (Z.lt_ge_cases (Z.abs z) top) as [Hlt|Hge].
    + destruct z as [|m|m]; try discriminate;
        apply binary_round_below_top; simpl in *; lia.
    + assert (Hc : z = top \/ z = top + 1 \/ z = - top \/ z = - (top + 1)) by lia.
      destruct Hc as [-> | [-> | [-> | ->]]]; vm_compute; discriminate.
Qed.

(** A Number that holds an integer holds one of magnitude at most
    [Number.MAX_VALUE]. *)
Lemma valid_to_Z_bound (x : number) (a : Z) :
  valid_binary prec emax x = true -> to_Z x = Some a -> Z.abs a <= top.
Proof.
  destruct x as [s|s| |s m e]; try discriminate.
  - intros _ [= <-]. simpl. pose proof (pow2_pos 971). nia.
  - unfold valid_binary, bounded, canonical_mantissa. intros Hv Ha.
    apply andb_true_iff in Hv as [Hc He].
    apply Z.eqb_eq in Hc. apply Z.leb_le in He.
    assert (Hd : Z.pos (digits2_pos m) <= 53)
      by (unfold fexp, emin, prec, emax in *; lia).
    assert (Hm : Z.pos m < 2 ^ 53).
    { rewrite Zdigits2_log2 in Hd. apply Z.log2_lt_pow2; lia. }
    assert (Habs : forall b, Z.abs (cond_Zopp s b) = Z.abs b) by (destruct s; simpl; lia).
    unfold to_Z in Ha. destruct (Z.leb_spec 0 e) as [H0|H0].
    + injection Ha as <-. rewrite Habs.
      assert (2 ^ e <= 2 ^ 971) by (apply Z.pow_le_mono_r; unfold emax, prec in *; lia).
      pose proof (pow2_pos e H0). nia.
    + destruct (Z.pos m mod 2 ^ (- e) =? 0); [|discriminate].
      injection Ha as <-. rewrite Habs.
      pose proof (pow2_pos (- e) ltac:(lia)) as Hp.
      assert (0 <= Z.pos m / 2 ^ (- e) <= Z.pos m).
      { split; [apply Z.div_pos; lia|].
        apply Z.div_le_upper_bound; [lia|]. nia. }
      pose proof (pow2_pos 971). nia.
Qed.

Lemma isInteger_opp (y : number) : isInteger (SFopp y) = isInteger y.
Proof. destruct y; reflexivity. Qed.

(** [+] and [-] keep integral Numbers integral, up to overflow. *)
Lemma isInteger_add (x y : number) :
  isInteger x = true -> isInteger y = true ->
  isInteger (add x y) = true \/ exists s, add x y = S754_infinity s.
Proof.
  intros Hx Hy.
  destruct x as [sx|sx| |sx mx ex]; try discriminate;
    destruct y as [sy|sy| |sy my ey]; try discriminate.
  - left. destruct sx, sy; reflexivity.
  - left. exact Hy.
  - left. exact Hx.
  - apply isInteger_to_Z in Hx, Hy. destruct Hx as [a Ha], Hy as [b Hb].
    rewrite (add_finite_of_Z _ _ _ _ _ _ a b Ha Hb). apply of_Z_integral.
Qed.

Lemma isInteger_sub (x y : number) :
  isInteger x = true -> isInteger y = true ->
  isInteger (sub x y) = true \/ exists s, sub x y = S754_infinity s.
Proof.
  intros Hx Hy. rewrite sub_add_opp. apply isInteger_add; auto.
  rewrite isInteger_opp. exact Hy.
Qed.

(** Adding or subtracting an integer of magnitude at most one keeps a
    Number that holds an integer integral: no overflow. *)
Lemma isInteger_add_unit (x y : number) (b : Z) :
  valid_binary prec emax x = true -> isInteger x = true ->
  to_Z y = Some b -> Z.abs b <= 1 ->
  isInteger (add x y) = true.
Proof.
  intros Hv Hx Hy Hb.
  assert (Hyint : isInteger y = true) by (apply isInteger_to_Z; eauto).
  destruct (isInteger_add x y Hx Hyint) as [H|[s Hinf]]; [exact H|exfalso].
  apply isInteger_to_Z in Hx as [a Ha].
  pose proof (valid_to_Z_bound x a Hv Ha) as Hbound.
  destruct x as [sx|sx| |sx mx ex]; try discriminate;
    destruct y as [sy|sy| |sy my ey]; try discriminate.
  - destruct sx, sy; discriminate.
  - rewrite (add_finite_of_Z _ _ _ _ _ _ a b Ha Hy) in Hinf.
    apply (of_Z_no_overflow (a + b)) in Hinf; [exact Hinf | lia].
Qed.

End Binary64.

(** ** The case reducers *)

Module CounterFacts.
Import JS CounterSlice.

Lemma reducer_increment (state : CounterState) (p : primitive) :
  reducer state {| type := "Counter/increment"; payload := p |} = increment state.
Proof. reflexivity. Qed.

Lemma reducer_decrement (state : CounterState) (p : primitive) :
  reducer state {| type := "Counter/decrement"; payload := p |} = decrement state.
Proof. reflexivity. Qed.

Lemma reducer_incrementbyfive (state : CounterState) (p : primitive) :
  reducer state {| type := "Counter/incrementbyfive"; payload := p |}
  = {| value := add (value state) (ToNumber p) |}.
Proof. reflexivity. Qed.

Lemma to_Z_increment (x : number) (v : Z) :
  to_Z x = Some v -> - 2 ^ 53 <= v < 2 ^ 53 ->
  to_Z (value (increment {| value := x |})) = Some (v + 1).
Proof.
  intros Hx Hv. simpl.
  apply Binary64.to_Z_add; [exact Hx | reflexivity |].
  apply Binary64.to_Z_of_Z. unfold prec. lia.
Qed.

Lemma to_Z_decrement (x : number) (v : Z) :
  to_Z x = Some v -> - 2 ^ 53 < v <= 2 ^ 53 ->
  to_Z (value (decrement {| value := x |})) = Some (v - 1).
Proof.
  intros Hx Hv. simpl.
  apply Binary64.to_Z_sub; [exact Hx | reflexivity |].
  apply Binary64.to_Z_of_Z. unfold prec. lia.
Qed.

Lemma reducer_cases (state : CounterState) (action : Action) :
  reducer state action =
    if String.eqb (type action) "Counter/increment" then increment state
    else if String.eqb (type action) "Counter/decrement" then decrement state
    else if String.eqb (type action) "Counter/incrementbyfive"
         then incrementbyfive state action
         else state.
Proof.
  unfold reducer. cbn.
  change (action_type "increment") with "Counter/increment".
  change (action_type "decrement") with "Counter/decrement".
  change (action_type "incrementbyfive") with "Counter/incrementbyfive".
  destruct (String.eqb (type action) "Counter/increment"); [reflexivity|].
  destruct (String.eqb (type action) "Counter/decrement"); [reflexivity|].
  destruct (String.eqb (type action) "Counter/incrementbyfive"); reflexivity.
Qed.



(** The literal of an integer up to [2^53] in magnitude is [+0] or a
    finite Number. *)
Lemma of_Z_shape (z : Z) :
  Z.abs z <= 2 ^ 53 ->
  (z = 0 /\ of_Z z = S754_zero false)
  \/ (z <> 0 /\ exists s m e, of_Z z = S754_finite s m e).
Proof.
  intros Hz. destruct (Z.eq_dec z 0) as [->|Hnz]; [left; split; reflexivity|].
  right. split; [exact Hnz|].
  pose proof (Binary64.to_Z_of_Z z Hz) as Tz.
  destruct (of_Z z) as [s|s| |s m e]; try discriminate; eauto.
  simpl in Tz. congruence.
Qed.

Lemma add_of_Z (a b : Z) :
  Z.abs a <= 2 ^ 53 -> Z.abs b <= 2 ^ 53 ->
  add (of_Z a) (of_Z b) = of_Z (a + b).
Proof.
  intros Ha Hb.
  pose proof (Binary64.to_Z_of_Z a Ha) as Ta.
  pose proof (Binary64.to_Z_of_Z b Hb) as Tb.
  destruct (of_Z_shape a Ha) as [[-> Ea]|[Hna (sa & ma & ea & Ea)]];
    destruct (of_Z_shape b Hb) as [[-> Eb]|[Hnb (sb & mb & eb & Eb)]].
  - reflexivity.
  - change (0 + b) with b. rewrite Ea, Eb. reflexivity.
  - rewrite Z.add_0_r, Ea, Eb. reflexivity.
  - rewrite Ea, Eb in *. apply Binary64.add_finite_of_Z; assumption.
Qed.

Lemma repeat_increment (n : nat) (v : Z) :
  - 2 ^ 53 <= v -> v + Z.of_nat n <= 2 ^ 53 ->
  repeat_dispatch n actions.increment {| value := of_Z v |}
  = {| value := of_Z (v + Z.of_nat n) |}.
Proof.
  revert v. induction n as [|n IH]; intros v Hlo Hhi.
  - simpl. rewrite Z.add_0_r. reflexivity.
  - cbn [repeat_dispatch].
    change (reducer {| value := of_Z v |} actions.increment)
      with {| value := add (of_Z v) (of_Z 1) |}.
    rewrite add_of_Z by lia. rewrite IH by lia. do 2 f_equal. lia.
Qed.

End CounterFacts.

(** C1 (as amended).  For every Number [x] holding an integer [v] with
    [-2^53 <= v < 2^53], dispatching [increment] on [{ value: x }] returns
    a state holding [v + 1]; for [-2^53 < v <= 2^53], dispatching
    [decrement] returns a state holding [v - 1]; both whatever the payload.
    From the initial state, [increment] yields the value 1. *)
Theorem increment_decrement_exact (x : JS.number) (v : Z) (p : JS.primitive) :
  JS.to_Z x = Some v ->
  (- 2 ^ 53 <= v < 2 ^ 53 ->
   JS.to_Z (value (CounterSlice.reducer {| value := x |}
                     {| type := "Counter/increment"; payload := p |})) = Some (v + 1))
  /\ (- 2 ^ 53 < v <= 2 ^ 53 ->
      JS.to_Z (value (CounterSlice.reducer {| value := x |}
                        {| type := "Counter/decrement"; payload := p |})) = Some (v - 1))
  /\ JS.to_Z (value (CounterSlice.reducer CounterSlice.initialState
                       {| type := "Counter/increment"; payload := p |})) = Some 1.
Proof.
  intros Hx. split; [|split].
  - intros Hv. rewrite CounterFacts.reducer_increment.
    apply CounterFacts.to_Z_increment; assumption.
  - intros Hv. rewrite CounterFacts.reducer_decrement.
    apply CounterFacts.to_Z_decrement; assumption.
  - reflexivity.
Qed.

Lemma increment_decrement_exact_witness :
  JS.to_Z (JS.of_Z 41) = Some 41
  /\ JS.to_Z (value (CounterSlice.reducer {| value := JS.of_Z 41 |}
                       {| type := "Counter/increment"; payload := JS.Num (JS.of_Z 7) |}))
     = Some 42
  /\ JS.to_Z (value (CounterSlice.reducer {| value := JS.of_Z 41 |}
                       {| type := "Counter/decrement"; payload := JS.Num (JS.of_Z 7) |}))
     = Some 40.
Proof.
  assert (H41 : JS.to_Z (JS.of_Z 41) = Some 41) by reflexivity.
  destruct (increment_decrement_exact (JS.of_Z 41) 41 (JS.Num (JS.of_Z 7)) H41)
    as (Hi & Hd & _).
  split; [exact H41|]. split; [apply Hi | apply Hd]; lia.
Defined.

(** C1 fails as stated: [2^53] is an integer Number, and [increment] on
    [{ value: 2^53 }] returns [{ value: 2^53 }], since [2^53 + 1] is not a
    Number and the sum rounds back to [2^53]. *)
Lemma increment_at_two_pow_53 :
  JS.to_Z (JS.of_Z (2 ^ 53)) = Some (2 ^ 53)
  /\ JS.to_Z (value (CounterSlice.reducer {| value := JS.of_Z (2 ^ 53) |}
                       CounterSlice.actions.increment)) = Some (2 ^ 53)
  /\ ~ (forall (x : JS.number) (v : Z), JS.to_Z x = Some v ->
          JS.to_Z (value (CounterSlice.reducer {| value := x |}
                            CounterSlice.actions.increment)) = Some (v + 1)).
Proof.
  split; [reflexivity|]. split; [reflexivity|].
  intros H. specialize (H (JS.of_Z (2 ^ 53)) (2 ^ 53) eq_refl).
  vm_compute in H. discriminate H.
Qed.

(** C2 (as amended).  For all Numbers [x] and [y] holding integers [v] and
    [n] (negative or not) whose sum satisfies [|v + n| <= 2^53],
    dispatching [incrementbyfive(y)] on [{ value: x }] yields a state
    holding [v + n]. *)
Theorem incrementbyfive_exact (x y : JS.number) (v n : Z) :
  JS.to_Z x = Some v -> JS.to_Z y = Some n ->
  Z.abs (v + n) <= 2 ^ 53 ->
  JS.to_Z (value (CounterSlice.reducer {| value := x |}
                    (CounterSlice.actions.incrementbyfive (JS.Num y)))) = Some (v + n).
Proof.
  intros Hx Hy Hsum.
  change (JS.to_Z (JS.add x y) = Some (v + n)).
  apply Binary64.to_Z_add; auto. apply Binary64.to_Z_of_Z. exact Hsum.
Qed.

Lemma incrementbyfive_exact_witness :
  JS.to_Z (value (CounterSlice.reducer {| value := JS.of_Z 0 |}
                    (CounterSlice.actions.incrementbyfive (JS.Num (JS.of_Z 5))))) = Some 5
  /\ JS.to_Z (value (CounterSlice.reducer {| value := JS.of_Z 3 |}
                       (CounterSlice.actions.incrementbyfive (JS.Num (JS.of_Z (-10))))))
     = Some (-7).
Proof.
  split.
  - apply (incrementbyfive_exact (JS.of_Z 0) (JS.of_Z 5) 0 5); [reflexivity | reflexivity | simpl; lia].
  - apply (incrementbyfive_exact (JS.of_Z 3) (JS.of_Z (-10)) 3 (-10)); [reflexivity | reflexivity | simpl; lia].
Defined.

(** C2 fails as stated: on [{ value: 2^53 }], [incrementbyfive(1)] yields
    [{ value: 2^53 }], not [2^53 + 1]. *)
Lemma incrementbyfive_at_two_pow_53 :
  JS.to_Z (JS.of_Z (2 ^ 53)) = Some (2 ^ 53)
  /\ JS.to_Z (JS.of_Z 1) = Some 1
  /\ JS.to_Z (value (CounterSlice.reducer {| value := JS.of_Z (2 ^ 53) |}
                       (CounterSlice.actions.incrementbyfive (JS.Num (JS.of_Z 1)))))
     = Some (2 ^ 53)
  /\ ~ (forall (x y : JS.number) (v n : Z),
          JS.to_Z x = Some v -> JS.to_Z y = Some n ->
          JS.to_Z (value (CounterSlice.reducer {| value := x |}
                            (CounterSlice.actions.incrementbyfive (JS.Num y))))
          = Some (v + n)).
Proof.
  split; [reflexivity|]. split; [reflexivity|]. split; [reflexivity|].
  intros H. specialize (H (JS.of_Z (2 ^ 53)) (JS.of_Z 1) (2 ^ 53) 1 eq_refl eq_refl).
  vm_compute in H. discriminate H.
Qed.

(** C5 (as amended).  For every Number [x] holding an integer [v] with
    [-2^53 <= v < 2^53], dispatching [increment] and then [decrement] on
    [{ value: x }] returns a state that holds [v] again. *)
Theorem increment_then_decrement (x : JS.number) (v : Z) :
  JS.to_Z x = Some v -> - 2 ^ 53 <= v < 2 ^ 53 ->
  JS.to_Z (value (CounterSlice.reducer
                    (CounterSlice.reducer {| value := x |} CounterSlice.actions.increment)
                    CounterSlice.actions.decrement)) = Some v.
Proof.
  intros Hx Hv.
  change (JS.to_Z (value (CounterSlice.decrement (CounterSlice.increment {| value := x |})))
          = Some v).
  pose proof (CounterFacts.to_Z_increment x v Hx Hv) as Hinc.
  destruct (CounterSlice.increment {| value := x |}) as [x'].
  replace v with (v + 1 - 1) at 1 by lia.
  apply CounterFacts.to_Z_decrement; [exact Hinc | lia].
Qed.

Lemma increment_then_decrement_witness :
  JS.to_Z (value (CounterSlice.reducer
                    (CounterSlice.reducer {| value := JS.of_Z (-3) |}
                       CounterSlice.actions.increment)
                    CounterSlice.actions.decrement)) = Some (-3).
Proof.
  apply (increment_then_decrement (JS.of_Z (-3)) (-3)); [reflexivity | lia].
Defined.

(** C5 fails as stated: from [{ value: 2^53 }], [increment] leaves
    [2^53] and [decrement] then gives [2^53 - 1]. *)
Lemma increment_then_decrement_at_two_pow_53 :
  JS.to_Z (JS.of_Z (2 ^ 53)) = Some (2 ^ 53)
  /\ JS.to_Z (value (CounterSlice.reducer
                       (CounterSlice.reducer {| value := JS.of_Z (2 ^ 53) |}
                          CounterSlice.actions.increment)
                       CounterSlice.actions.decrement)) = Some (2 ^ 53 - 1)
  /\ ~ (forall (x : JS.number) (v : Z), JS.to_Z x = Some v ->
          JS.to_Z (value (CounterSlice.reducer
                            (CounterSlice.reducer {| value := x |}
                               CounterSlice.actions.increment)
                            CounterSlice.actions.decrement)) = Some v).
Proof.
  split; [reflexivity|]. split; [reflexivity|].
  intros H. specialize (H (JS.of_Z (2 ^ 53)) (2 ^ 53) eq_refl).
  vm_compute in H. discriminate H.
Qed.



(** C10 (as amended).  For every integer [v] and natural number [n] with
    [-2^53 <= v], [v + n <= 2^53] and [n <= 2^53], dispatching [increment]
    [n] times from [{ value: v }] produces the same state as dispatching
    [incrementbyfive(n)] once, and that state holds [v + n]. *)
Theorem repeated_increment_is_incrementbyfive (v : Z) (n : nat) :
  - 2 ^ 53 <= v -> v + Z.of_nat n <= 2 ^ 53 -> Z.of_nat n <= 2 ^ 53 ->
  CounterSlice.repeat_dispatch n CounterSlice.actions.increment {| value := JS.of_Z v |}
  = CounterSlice.reducer {| value := JS.of_Z v |}
      (CounterSlice.actions.incrementbyfive (JS.Num (JS.of_Z (Z.of_nat n))))
  /\ JS.to_Z (value (CounterSlice.repeat_dispatch n CounterSlice.actions.increment
                       {| value := JS.of_Z v |})) = Some (v + Z.of_nat n).
Proof.
  intros Hlo Hhi Hn. rewrite CounterFacts.repeat_increment by assumption.
  split.
  - change (CounterSlice.reducer {| value := JS.of_Z v |}
              (CounterSlice.actions.incrementbyfive (JS.Num (JS.of_Z (Z.of_nat n)))))
      with {| value := JS.add (JS.of_Z v) (JS.of_Z (Z.of_nat n)) |}.
    rewrite CounterFacts.add_of_Z by lia. reflexivity.
  - apply Binary64.to_Z_of_Z. unfold JS.prec. lia.
Qed.

Lemma repeated_increment_is_incrementbyfive_witness :
  CounterSlice.repeat_dispatch 3 CounterSlice.actions.increment {| value := JS.of_Z 4 |}
  = CounterSlice.reducer {| value := JS.of_Z 4 |}
      (CounterSlice.actions.incrementbyfive (JS.Num (JS.of_Z 3)))
  /\ JS.to_Z (value (CounterSlice.repeat_dispatch 3 CounterSlice.actions.increment
                       {| value := JS.of_Z 4 |})) = Some 7.
Proof.
  apply (repeated_increment_is_incrementbyfive 4 3); simpl; lia.
Defined.

(** C10 fails as stated: from [{ value: 2^53 }] two [increment]s leave
    [2^53], while [incrementbyfive(2)] gives [2^53 + 2]. *)
Lemma two_increments_at_two_pow_53 :
  JS.to_Z (JS.of_Z (2 ^ 53)) = Some (2 ^ 53)
  /\ JS.to_Z (value (CounterSlice.repeat_dispatch 2 CounterSlice.actions.increment
                       {| value := JS.of_Z (2 ^ 53) |})) = Some (2 ^ 53)
  /\ JS.to_Z (value (CounterSlice.reducer {| value := JS.of_Z (2 ^ 53) |}
                       (CounterSlice.actions.incrementbyfive (JS.Num (JS.of_Z 2)))))
     = Some (2 ^ 53 + 2)
  /\ CounterSlice.repeat_dispatch 2 CounterSlice.actions.increment
       {| value := JS.of_Z (2 ^ 53) |}
     <> CounterSlice.reducer {| value := JS.of_Z (2 ^ 53) |}
          (CounterSlice.actions.incrementbyfive (JS.Num (JS.of_Z 2))).
Proof.
  split; [reflexivity|]. split; [reflexivity|]. split; [reflexivity|].
  vm_compute. discriminate.
Qed.

(** C8 (as amended).  The reducer keeps the shape of the slice state.  On
    a state whose [value] is a Number holding an integer, every action
    that carries an integer Number payload when it is [incrementbyfive]
    (any payload otherwise) yields a state, again of the single field
    [value], that holds an integer Number or an infinity; the infinity can
    only come from [incrementbyfive]. *)
Theorem reducer_keeps_integer_or_overflows (state : CounterState) (action : Action) :
  valid_binary JS.prec JS.emax (value state) = true ->
  JS.isInteger (value state) = true ->
  (type action = "Counter/incrementbyfive" ->
   exists y, payload action = JS.Num y /\ JS.isInteger y = true) ->
  (JS.isInteger (value (CounterSlice.reducer state action)) = true
   \/ exists s, value (CounterSlice.reducer state action) = S754_infinity s)
  /\ (type action <> "Counter/incrementbyfive" ->
      JS.isInteger (value (CounterSlice.reducer state action)) = true).
Proof.
  intros Hval Hint Hpay. rewrite CounterFacts.reducer_cases.
  destruct (String.eqb_spec (type action) "Counter/increment") as [Hi|_].
  { assert (H : JS.isInteger (value (CounterSlice.increment state)) = true)
      by (apply (Binary64.isInteger_add_unit _ _ 1); auto; reflexivity).
    auto. }
  destruct (String.eqb_spec (type action) "Counter/decrement") as [Hd|_].
  { assert (H : JS.isInteger (value (CounterSlice.decrement state)) = true).
    { unfold CounterSlice.decrement. cbn [value]. rewrite Binary64.sub_add_opp.
      apply (Binary64.isInteger_add_unit _ _ (-1)); auto; reflexivity. }
    auto. }
  destruct (String.eqb_spec (type action) "Counter/incrementbyfive") as [Hty|Hty];
    [|auto].
  split; [|congruence].
  destruct (Hpay Hty) as (y & Hy & Hyint).
  unfold CounterSlice.incrementbyfive. rewrite Hy.
  apply Binary64.isInteger_add; assumption.
Qed.

Lemma reducer_keeps_integer_or_overflows_witness :
  JS.isInteger (value (CounterSlice.reducer {| value := JS.of_Z 2 |}
                         (CounterSlice.actions.incrementbyfive (JS.Num (JS.of_Z 40)))))
  = true
  \/ exists s, value (CounterSlice.reducer {| value := JS.of_Z 2 |}
                        (CounterSlice.actions.incrementbyfive (JS.Num (JS.of_Z 40))))
               = S754_infinity s.
Proof.
  apply (reducer_keeps_integer_or_overflows {| value := JS.of_Z 2 |}
           (CounterSlice.actions.incrementbyfive (JS.Num (JS.of_Z 40)))).
  - reflexivity.
  - reflexivity.
  - intros _. exists (JS.of_Z 40). split; reflexivity.
Defined.

(** C8 fails as stated: the largest Number is an integer, and adding it to
    itself with [incrementbyfive] yields [Infinity], which is not one. *)
Lemma incrementbyfive_overflows :
  JS.isInteger JS.MAX_VALUE = true
  /\ JS.to_Z JS.MAX_VALUE = Some ((2 ^ 53 - 1) * 2 ^ 971)
  /\ value (CounterSlice.reducer {| value := JS.MAX_VALUE |}
              (CounterSlice.actions.incrementbyfive (JS.Num JS.MAX_VALUE))) = JS.Infinity
  /\ JS.isInteger JS.Infinity = false.
Proof.
  vm_compute. repeat split; reflexivity.
Qed.



(** ** The container *)

Module ContainerFacts.
Import StateContainer.

Section Facts.
Context {V W : Type}.
Implicit Types (c : container V W) (w : W) (action : Action).

Lemma notify_spec (subs : list (nat * callback V W)) (st : State V) w :
  notify subs st w = (foldl (fun w s => snd s st w) w subs, fst <$> subs).
Proof.
  revert w. induction subs as [|[h cb] subs IH]; intros w; simpl.
  - reflexivity.
  - rewrite IH. reflexivity.
Qed.

Lemma dispatch_unresolved c action w :
  resolve c action = None -> dispatch action c w = (c, w, []).
Proof. intros H. unfold dispatch. rewrite H. reflexivity. Qed.

Lemma dispatch_another c action w ns old f next :
  resolve c action = Some (ns, old, f) -> f (content old) action = Another next ->
  dispatch action c w
  = (replace_slice ns next c,
     foldl (fun w s => snd s (getState (replace_slice ns next c)) w) w (subscribers c),
     handles c).
Proof.
  intros Hres Hf. unfold dispatch. rewrite Hres, Hf. cbv zeta.
  rewrite notify_spec. reflexivity.
Qed.

Lemma dispatch_itself c action w ns old f :
  resolve c action = Some (ns, old, f) -> f (content old) action = Itself ->
  dispatch action c w = (c, w, []).
Proof. intros Hres Hf. unfold dispatch. rewrite Hres, Hf. reflexivity. Qed.

Lemma dispatch_subscribers c action w :
  subscribers (fst (fst (dispatch action c w))) = subscribers c
  /\ next_handle (fst (fst (dispatch action c w))) = next_handle c.
Proof.
  destruct (resolve c action) as [[[ns old] f]|] eqn:Hres;
    [|rewrite dispatch_unresolved by assumption; auto].
  destruct (f (content old) action) as [|next] eqn:Hf.
  - rewrite (dispatch_itself c action w ns old f) by assumption. auto.
  - rewrite (dispatch_another c action w ns old f next) by assumption. auto.
Qed.

Lemma dispatch_called c action w :
  snd (dispatch action c w) = [] \/ snd (dispatch action c w) = handles c.
Proof.
  destruct (resolve c action) as [[[ns old] f]|] eqn:Hres;
    [|rewrite dispatch_unresolved by assumption; auto].
  destruct (f (content old) action) as [|next] eqn:Hf.
  - rewrite (dispatch_itself c action w ns old f) by assumption. auto.
  - rewrite (dispatch_another c action w ns old f next) by assumption. auto.
Qed.

Lemma dispatch_successful c action w :
  successful action c ->
  snd (dispatch action c w) = handles c
  /\ snd (fst (dispatch action c w))
     = foldl (fun acc s => snd s (getState (fst (fst (dispatch action c w)))) acc)
         w (subscribers c).
Proof.
  intros (ns & old & f & next & Hres & Hf).
  rewrite (dispatch_another c action w ns old f next) by assumption.
  split; reflexivity.
Qed.

Lemma subscribe_each_spec (cbs : list (callback V W)) c :
  subscribers (fst (subscribe_each cbs c))
  = subscribers c ++ zip (snd (subscribe_each cbs c)) cbs
  /\ length (snd (subscribe_each cbs c)) = length cbs
  /\ (forall action, successful action c ->
        successful action (fst (subscribe_each cbs c))).
Proof.
  revert c. induction cbs as [|cb cbs IH]; intros c.
  - simpl. rewrite app_nil_r. auto.
  - cbn [subscribe_each]. destruct (subscribe cb c) as [c1 h] eqn:E1.
    specialize (IH c1). destruct (subscribe_each cbs c1) as [c2 hs].
    cbn [fst snd] in *. destruct IH as (Hs & Hl & Hok).
    unfold subscribe in E1. injection E1 as <- <-.
    rewrite Hs. cbn [subscribers length zip zip_with].
    rewrite <- app_assoc. repeat split; auto.
Qed.

Lemma retired_unsubscribe h c : (h < next_handle c)%nat -> retired h (unsubscribe h c).
Proof.
  intros Hh. split; [exact Hh|].
  unfold handles, unsubscribe. cbn [subscribers].
  intros Hin. apply list_elem_of_fmap in Hin as ([h' cb] & -> & Hin).
  apply list_elem_of_filter in Hin as [Hne _]. simpl in Hne. congruence.
Qed.

Lemma retired_perform h (k : call V W) (cw : container V W * W) :
  retired h (fst cw) -> retired h (fst (perform cw k)).
Proof.
  intros [Hlt Hnot]. destruct cw as [c w]. destruct k as [action|cb|h']; simpl in *.
  - pose proof (dispatch_subscribers c action w) as [Hs Hn].
    destruct (dispatch action c w) as [[c' w'] called]. simpl in *.
    split; [lia|]. unfold handles. rewrite Hs. exact Hnot.
  - split; [simpl; lia|].
    unfold handles. cbn [subscribers]. rewrite fmap_app, elem_of_app.
    intros [Hin|Hin]; [exact (Hnot Hin)|].
    simpl in Hin. apply list_elem_of_singleton in Hin. lia.
  - split; [exact Hlt|].
    unfold handles, unsubscribe. cbn [subscribers].
    intros Hin. apply list_elem_of_fmap in Hin as ([h'' cb] & -> & Hin).
    apply list_elem_of_filter in Hin as [_ Hin].
    apply Hnot. unfold handles. apply list_elem_of_fmap. exists (h'', cb). auto.
Qed.

Lemma retired_perform_all h (ks : list (call V W)) (cw : container V W * W) :
  retired h (fst cw) -> retired h (fst (perform_all ks cw)).
Proof.
  unfold perform_all. revert cw. induction ks as [|k ks IH]; intros cw H; simpl.
  - exact H.
  - apply IH, retired_perform, H.
Qed.

Lemma foldl_zip_snd (hs : list nat) (cbs : list (callback V W)) (st : State V) w :
  length hs = length cbs ->
  foldl (fun acc s => snd s st acc) w (zip hs cbs)
  = foldl (fun acc cb => cb st acc) w cbs.
Proof.
  revert cbs w. induction hs as [|h hs IH]; intros [|cb cbs] w Hl;
    simpl in *; try discriminate; auto.
Qed.

Lemma perform_next_handle (k : call V W) (cw : container V W * W) :
  (next_handle (fst cw) <= next_handle (fst (perform cw k)))%nat.
Proof.
  destruct cw as [c w]. destruct k as [action|cb|h']; simpl.
  - pose proof (dispatch_subscribers c action w) as [_ Hn].
    destruct (dispatch action c w) as [[c' w'] called]. simpl in *. lia.
  - lia.
  - lia.
Qed.

Lemma perform_all_next_handle (ks : list (call V W)) (cw : container V W * W) :
  (next_handle (fst cw) <= next_handle (fst (perform_all ks cw)))%nat.
Proof.
  unfold perform_all. revert cw. induction ks as [|k ks IH]; intros cw; simpl.
  - lia.
  - etransitivity; [apply (perform_next_handle k cw) | apply IH].
Qed.


End Facts.
End ContainerFacts.

(** The specification's scenarios on the container of [Store.js]. *)

Example scenario_increment_from_zero :
  StateContainer.content
    <$> StateContainer.getState
          (fst (fst (StateContainer.dispatch (W := unit)
                       CounterSlice.actions.increment Store tt))) !! "Counter"
  = Some {| value := JS.of_Z 1 |}.
Proof. vm_compute. reflexivity. Qed.

Example scenario_subscribe_then_unsubscribe :
  let registered := StateContainer.subscribe (fun _ log => log ++ [7%nat]) Store in
  let first :=
    StateContainer.dispatch CounterSlice.actions.increment (fst registered) [] in
  let second :=
    StateContainer.dispatch CounterSlice.actions.increment
      (StateContainer.unsubscribe (snd registered) (fst (fst first))) (snd (fst first)) in
  snd (fst first) = [7%nat] /\ snd first = [0%nat]
  /\ snd (fst second) = [7%nat] /\ snd second = [].
Proof. vm_compute. repeat split; reflexivity. Qed.





(** C7.  On a successful dispatch the subscribers are called in the order
    of their registration, each once and on the State after the dispatch,
    and their effects are part of what [dispatch] returns.  A registration
    whose unregistration function has been called is not called by any
    later dispatch, whatever calls were made in between. *)
Theorem subscribers_called_in_registration_order {V W : Type}
    (c : StateContainer.container V W) (cbs : list (StateContainer.callback V W))
    (action : Action) (w : W) :
  StateContainer.successful action c ->
  (let c1 := fst (StateContainer.subscribe_each cbs c) in
   let hs := snd (StateContainer.subscribe_each cbs c) in
   snd (StateContainer.dispatch action c1 w) = StateContainer.handles c ++ hs
   /\ snd (fst (StateContainer.dispatch action c1 w))
      = foldl (fun acc cb =>
                 cb (StateContainer.getState
                       (fst (fst (StateContainer.dispatch action c1 w)))) acc)
          w ((snd <$> StateContainer.subscribers c) ++ cbs))
  /\ (forall (cb : StateContainer.callback V W)
        (before after : list (StateContainer.call V W)) (later : Action),
        let reg := StateContainer.subscribe cb c in
        let mid := StateContainer.perform_all before (fst reg, w) in
        let fin :=
          StateContainer.perform_all after
            (StateContainer.unsubscribe (snd reg) (fst mid), snd mid) in
        snd reg ∉ snd (StateContainer.dispatch later (fst fin) (snd fin))).
Proof.
  intros Hok. split.
  - cbv zeta.
    destruct (ContainerFacts.subscribe_each_spec cbs c) as (Hs & Hl & Hsucc).
    destruct (ContainerFacts.dispatch_successful
                (fst (StateContainer.subscribe_each cbs c)) action w (Hsucc action Hok))
      as [Hcalled Hworld].
    split.
    + rewrite Hcalled. unfold StateContainer.handles. rewrite Hs, fmap_app.
      f_equal. apply fst_zip. lia.
    + rewrite Hworld, Hs.
      set (st := StateContainer.getState _).
      rewrite !foldl_app, foldl_fmap.
      apply ContainerFacts.foldl_zip_snd. exact Hl.
  - intros cb before after later reg mid fin.
    assert (Hret : StateContainer.retired (snd reg) (fst fin)).
    { apply ContainerFacts.retired_perform_all. cbn [fst].
      apply ContainerFacts.retired_unsubscribe.
      pose proof (ContainerFacts.perform_all_next_handle before (fst reg, w)) as Hmono.
      fold mid in Hmono. subst reg. simpl in *. lia. }
    destruct Hret as [_ Hnot].
    destruct (ContainerFacts.dispatch_called (fst fin) later (snd fin)) as [E|E];
      rewrite E; [apply not_elem_of_nil | exact Hnot].
Qed.

Lemma subscribers_called_in_registration_order_witness :
  snd (StateContainer.dispatch CounterSlice.actions.increment
         (fst (StateContainer.subscribe_each loggers Store)) []) = [0%nat; 1%nat]
  /\ snd (fst (StateContainer.dispatch CounterSlice.actions.increment
                 (fst (StateContainer.subscribe_each loggers Store)) []))
     = [1%nat; 2%nat].
Proof.
  assert (Hok : StateContainer.successful CounterSlice.actions.increment
                  (Store (W := list nat))).
  { do 4 eexists. split; reflexivity. }
  destruct (subscribers_called_in_registration_order Store loggers
              CounterSlice.actions.increment [] Hok) as [[Hcalled Hworld] _].
  split.
  - exact Hcalled.
  - exact Hworld.
Defined.

(** ** Further properties of the slice *)

Module SliceFacts.
Import JS CounterSlice.

Lemma add_not_finite_l (x y : number) : isFinite x = false -> isFinite (add x y) = false.
Proof.
  destruct x as [sx|sx| |sx mx ex]; try discriminate; intros _;
    destruct y as [sy|sy| |sy my ey]; try reflexivity; destruct sx, sy; reflexivity.
Qed.

Lemma sub_not_finite_l (x y : number) : isFinite x = false -> isFinite (sub x y) = false.
Proof.
  intros H. rewrite Binary64.sub_add_opp. apply add_not_finite_l, H.
Qed.


Lemma reducer_not_finite (state : CounterState) (action : Action) :
  isFinite (value state) = false -> isFinite (value (reducer state action)) = false.
Proof.
  intros H. rewrite CounterFacts.reducer_cases.
  destruct (String.eqb (type action) "Counter/increment");
    [apply add_not_finite_l, H|].
  destruct (String.eqb (type action) "Counter/decrement");
    [apply sub_not_finite_l, H|].
  destruct (String.eqb (type action) "Counter/incrementbyfive");
    [apply add_not_finite_l, H | exact H].
Qed.


End SliceFacts.



(** X2.  A value that is not finite ([NaN], [Infinity] or [-Infinity])
    never becomes finite again, whatever actions follow. *)
Theorem not_finite_is_closed (actions : list Action) (state : CounterState) :
  isFinite (value state) = false ->
  isFinite (value (reduce_all actions state)) = false.
Proof.
  unfold reduce_all. revert state.
  induction actions as [|action actions IH]; intros state H; simpl.
  - exact H.
  - apply IH, SliceFacts.reducer_not_finite, H.
Qed.

Lemma not_finite_is_closed_witness :
  isFinite (value (reduce_all
                     [ CounterSlice.actions.decrement;
                       CounterSlice.actions.incrementbyfive (JS.Num (JS.of_Z (-7))) ]
                     {| value := JS.Infinity |})) = false.
Proof.
  apply (not_finite_is_closed _ {| value := JS.Infinity |}). reflexivity.
Defined.

(** X3.  On every state, NaN, infinities and signed zeros included,
    [decrement] does what [incrementbyfive(-1)] does and [increment] what
    [incrementbyfive(1)] does, whatever payload the two carry. *)
Theorem increment_decrement_as_incrementbyfive (state : CounterState) (p : JS.primitive) :
  CounterSlice.reducer state {| type := "Counter/decrement"; payload := p |}
  = CounterSlice.reducer state (CounterSlice.actions.incrementbyfive (JS.Num (JS.of_Z (-1))))
  /\ CounterSlice.reducer state {| type := "Counter/increment"; payload := p |}
     = CounterSlice.reducer state (CounterSlice.actions.incrementbyfive (JS.Num (JS.of_Z 1))).
Proof.
  split; [|reflexivity].
  rewrite CounterFacts.reducer_decrement, CounterFacts.reducer_incrementbyfive.
  unfold CounterSlice.decrement. rewrite Binary64.sub_add_opp. reflexivity.
Qed.





(** ** The component *)

Module AppFacts.
Import JS App.

Lemma click_amount (state : RootState) (b : button) (v k : Z) :
  to_Z (count state) = Some v -> amount b = Some k -> Z.abs (v + k) <= 2 ^ 53 ->
  to_Z (count (rootReducer state (onClick b))) = Some (v + k).
Proof.
  intros Hv Hk Hsum. destruct state as [[x]]. unfold count in *. cbn [Counter value] in *.
  assert (Hrep : to_Z (of_Z (v + k)) = Some (v + k))
    by (apply Binary64.to_Z_of_Z; exact Hsum).
  destruct b as [| |num]; cbn [amount] in Hk.
  - injection Hk as <-. apply (Binary64.to_Z_add x (of_Z 1) v 1); auto.
  - injection Hk as <-. apply (Binary64.to_Z_sub x (of_Z 1) v 1); auto.
  - apply (Binary64.to_Z_add x num v k); auto.
Qed.

Lemma total_reach (bs : list button) (t r : Z) :
  total bs = Some t -> reach bs = Some r -> Z.abs t <= r.
Proof.
  revert t r. induction bs as [|b bs IH]; intros t r; simpl.
  - intros [= <-] [= <-]. lia.
  - destruct (amount b) as [k|]; [|discriminate].
    destruct (total bs) as [t'|]; [|discriminate].
    destruct (reach bs) as [r'|]; [|discriminate].
    intros [= <-] [= <-]. specialize (IH t' r' eq_refl eq_refl). lia.
Qed.

Lemma total_Permutation (bs bs' : list button) :
  bs ≡ₚ bs' -> total bs = total bs' /\ reach bs = reach bs'.
Proof.
  induction 1 as [|b l l' _ [IHt IHr]|b1 b2 l|l1 l2 l3 _ [IH1 IH1'] _ [IH2 IH2']]; simpl.
  - auto.
  - rewrite IHt, IHr. auto.
  - destruct (amount b1) as [k1|], (amount b2) as [k2|],
      (total l) as [t|], (reach l) as [r|]; split; try reflexivity; f_equal; lia.
  - split; congruence.
Qed.

Lemma clicks_total (bs : list button) (state : RootState) (v t r : Z) :
  to_Z (count state) = Some v ->
  total bs = Some t -> reach bs = Some r ->
  Z.abs v + r <= 2 ^ 53 ->
  to_Z (count (clicks bs state)) = Some (v + t).
Proof.
  unfold clicks. revert state v t r.
  induction bs as [|b bs IH]; intros state v t r Hv Ht Hr Hbound; simpl in *.
  - injection Ht as <-. rewrite Z.add_0_r. exact Hv.
  - destruct (amount b) as [k|] eqn:Hk; [|discriminate].
    destruct (total bs) as [t'|] eqn:Ht'; [|discriminate].
    destruct (reach bs) as [r'|] eqn:Hr'; [|discriminate].
    injection Ht as <-. injection Hr as <-.
    pose proof (total_reach bs t' r' Ht' Hr') as Htr.
    rewrite Z.add_assoc.
    apply (IH _ (v + k) t' r'); auto; [|lia].
    apply click_amount; auto. lia.
Qed.

End AppFacts.

(** X6.  Clicks add up.  From a store state whose count holds the integer
    [v], a series of clicks whose amounts are integers (1 for Increment,
    -1 for Decrement, [Number(num)] for the third button) ends with the
    count holding [v] plus the sum of the amounts, provided [|v|] plus the
    magnitudes of the amounts stays within [2^53]. *)
Theorem clicks_add_up (bs : list App.button) (state : App.RootState) (v t r : Z) :
  JS.to_Z (App.count state) = Some v ->
  App.total bs = Some t -> App.reach bs = Some r ->
  Z.abs v + r <= 2 ^ 53 ->
  JS.to_Z (App.count (App.clicks bs state)) = Some (v + t).
Proof.
  unfold App.clicks. revert state v t r.
  induction bs as [|b bs IH]; intros state v t r Hv Ht Hr Hbound; simpl in *.
  - injection Ht as <-. rewrite Z.add_0_r. exact Hv.
  - destruct (App.amount b) as [k|] eqn:Hk; [|discriminate].
    destruct (App.total bs) as [t'|] eqn:Ht'; [|discriminate].
    destruct (App.reach bs) as [r'|] eqn:Hr'; [|discriminate].
    injection Ht as <-. injection Hr as <-.
    pose proof (AppFacts.total_reach bs t' r' Ht' Hr') as Htr.
    rewrite Z.add_assoc.
    apply (IH _ (v + k) t' r'); auto; [|lia].
    apply AppFacts.click_amount; auto. lia.
Qed.

Lemma clicks_add_up_witness :
  JS.to_Z (App.count (App.clicks
                        [ App.Increment; App.IncrementBy (JS.of_Z 5);
                          App.Decrement; App.Increment ]
                        App.preloadedState)) = Some 6.
Proof.
  apply (clicks_add_up
           [ App.Increment; App.IncrementBy (JS.of_Z 5); App.Decrement; App.Increment ]
           App.preloadedState 0 6 8); try reflexivity.
  simpl. lia.
Defined.

(** X7.  Within that range the order of the clicks does not matter: two
    series with the same clicks in different orders end with the same
    count. *)
Theorem clicks_commute (bs bs' : list App.button) (state : App.RootState) (v t r : Z) :
  bs ≡ₚ bs' ->
  JS.to_Z (App.count state) = Some v ->
  App.total bs = Some t -> App.reach bs = Some r ->
  Z.abs v + r <= 2 ^ 53 ->
  JS.to_Z (App.count (App.clicks bs' state)) = JS.to_Z (App.count (App.clicks bs state)).
Proof.
  intros Hperm Hv Ht Hr Hbound.
  destruct (AppFacts.total_Permutation bs bs' Hperm) as [Et Er].
  rewrite (AppFacts.clicks_total bs state v t r) by assumption.
  rewrite (AppFacts.clicks_total bs' state v t r)
    by (try rewrite <- Et; try rewrite <- Er; assumption).
  reflexivity.
Qed.

Lemma clicks_commute_witness :
  JS.to_Z (App.count (App.clicks [ App.IncrementBy (JS.of_Z 5); App.Decrement ]
                        App.preloadedState))
  = JS.to_Z (App.count (App.clicks [ App.Decrement; App.IncrementBy (JS.of_Z 5) ]
                          App.preloadedState)).
Proof.
  apply (clicks_commute [ App.Decrement; App.IncrementBy (JS.of_Z 5) ]
           [ App.IncrementBy (JS.of_Z 5); App.Decrement ]
           App.preloadedState 0 4 6); try reflexivity.
  - apply perm_swap.
  - simpl. lia.
Defined.

(** Beyond the range the order does matter: from a count of [2^53],
    Increment then Decrement ends one below Decrement then Increment. *)
Example clicks_do_not_commute_at_two_pow_53 :
  JS.to_Z (App.count (App.clicks [ App.Increment; App.Decrement ]
                        {| App.Counter := {| value := JS.of_Z (2 ^ 53) |} |}))
  = Some (2 ^ 53 - 1)
  /\ JS.to_Z (App.count (App.clicks [ App.Decrement; App.Increment ]
                           {| App.Counter := {| value := JS.of_Z (2 ^ 53) |} |}))
     = Some (2 ^ 53).
Proof. split; reflexivity. Qed.

(** ** Results that stay Numbers *)

Module Canonical.
Import JS.

Local Abbreviation exact m := {| shr_m := m; shr_r := false; shr_s := false |}.
Local Abbreviation top := ((2 ^ 53 - 1) * 2 ^ 971).

Lemma Zdigits2_eq (m k : Z) : 2 ^ (k - 1) <= m < 2 ^ k -> 1 <= k -> Zdigits2 m = k.
Proof.
  intros [Hlo Hhi] Hk.
  pose proof (Binary64.pow2_pos (k - 1) ltac:(lia)) as Hp.
  destruct m as [|q|q]; try lia.
  change (Zdigits2 (Z.pos q)) with (Z.pos (digits2_pos q)).
  rewrite Binary64.Zdigits2_log2.
  assert (Z.log2 (Z.pos q) < k) by (apply Z.log2_lt_pow2; lia).
  assert (k - 1 <= Z.log2 (Z.pos q)) by (apply Z.log2_le_pow2; lia).
  lia.
Qed.

Lemma digits_bounds (m : positive) :
  2 ^ (Z.pos (digits2_pos m) - 1) <= Z.pos m < 2 ^ Z.pos (digits2_pos m).
Proof.
  rewrite Binary64.Zdigits2_log2.
  pose proof (Z.log2_spec (Z.pos m) ltac:(lia)) as [Hlo Hhi].
  replace (Z.log2 (Z.pos m) + 1 - 1) with (Z.log2 (Z.pos m)) by lia.
  replace (Z.log2 (Z.pos m) + 1) with (Z.succ (Z.log2 (Z.pos m))) by lia.
  auto.
Qed.

(** A mantissa of exactly 53 bits at an exponent of the normal range is a
    Number. *)
Lemma bounded_53 (m : positive) (e : Z) :
  2 ^ 52 <= Z.pos m < 2 ^ 53 -> -1074 <= e <= 971 ->
  bounded prec emax m e = true.
Proof.
  intros Hm He. unfold bounded, canonical_mantissa.
  change (Z.pos (digits2_pos m)) with (Zdigits2 (Z.pos m)).
  rewrite (Zdigits2_eq (Z.pos m) 53) by (simpl; lia).
  apply andb_true_iff. split.
  - apply Z.eqb_eq. unfold fexp, emin, prec, emax. lia.
  - apply Z.leb_le. unfold prec, emax. lia.
Qed.

(** Between [2^53] and the largest Number, rounding gives a Number. *)
Lemma binary_round_valid (s : bool) (m : positive) :
  2 ^ 53 <= Z.pos m < top ->
  valid_binary prec emax (binary_round prec emax s m 0) = true.
Proof.
  intros [Hlo Hhi].
  set (d := Z.pos (digits2_pos m)).
  pose proof (digits_bounds m) as [Hmlo Hmhi]. fold d in Hmlo, Hmhi.
  assert (Hd : 54 <= d <= 1024).
  { unfold d. rewrite Binary64.Zdigits2_log2.
    assert (53 <= Z.log2 (Z.pos m)) by (apply Z.log2_le_pow2; lia).
    assert (Z.log2 (Z.pos m) < 1024).
    { apply Z.log2_lt_pow2; [lia|].
      eapply Z.lt_le_trans; [exact Hhi|].
      replace (2 ^ 1024) with (2 ^ 53 * 2 ^ 971)
        by (rewrite <- Z.pow_add_r; [reflexivity|lia|lia]).
      pose proof (Binary64.pow2_pos 971). nia. }
    lia. }
  rewrite Binary64.binary_round_aligned, Binary64.aligned_spec. cbv zeta. fold d.
  assert (Ht : fexp prec emax (d + 0) = d - 53)
    by (unfold fexp, emin, prec, emax; lia).
  rewrite Ht. set (t := d - 53) in *.
  destruct (Z.ltb_spec t 0) as [Hneg|_]; [lia|].
  rewrite Z.sub_0_r.
  destruct t as [|p|p] eqn:Hp; try lia.
  unfold shr. rewrite Binary64.iter_pos_iter.
  pose proof (Binary64.iter_shr_1_m p (exact (Z.pos m)) ltac:(simpl; lia)) as Hm'.
  cbn [shr_m] in Hm'.
  set (mrs' := Pos.iter shr_1 (exact (Z.pos m)) p) in *.
  pose proof (Binary64.pow2_pos (Z.pos p) ltac:(lia)) as Hpp.
  assert (Hm'lo : 2 ^ 52 <= shr_m mrs').
  { rewrite Hm'. apply Z.div_le_lower_bound; [lia|].
    rewrite <- Z.pow_add_r by lia.
    replace (Z.pos p + 52) with (d - 1) by lia. exact Hmlo. }
  assert (Hm'hi : shr_m mrs' < 2 ^ 53).
  { rewrite Hm'. apply Z.div_lt_upper_bound; [lia|].
    rewrite <- Z.pow_add_r by lia.
    replace (Z.pos p + 53) with d by lia. exact Hmhi. }
  assert (Hm'top : Z.pos p = 971 -> shr_m mrs' < 2 ^ 53 - 1).
  { intros E. rewrite Hm'. apply Z.div_lt_upper_bound; [lia|].
    rewrite E, Z.mul_comm. exact Hhi. }
  set (m1 := round_nearest_even (shr_m mrs') (loc_of_shr_record mrs')).
  assert (Hm1 : shr_m mrs' <= m1 <= shr_m mrs' + 1).
  { split; [|apply Binary64.round_nearest_even_le].
    unfold m1. destruct (loc_of_shr_record mrs') as [|[]]; simpl; try lia.
    destruct (Z.even (shr_m mrs')); lia. }
  unfold shr_fexp. cbn [shr_record_of_loc].
  destruct (Z.eq_dec m1 (2 ^ 53)) as [Ecarry|Hno].
  - assert (Hp970 : Z.pos p <= 970).
    { destruct (Z.eq_dec (Z.pos p) 971) as [E|E]; [specialize (Hm'top E)|]; lia. }
    rewrite Ecarry.
    rewrite (Zdigits2_eq (2 ^ 53) 54) by (simpl; lia).
    replace (fexp prec emax (54 + (0 + Z.pos p)) - (0 + Z.pos p)) with 1
      by (unfold fexp, emin, prec, emax; lia).
    cbn [shr iter_pos]. change (shr_1 (exact (2 ^ 53))) with (exact (2 ^ 52)).
    cbn [shr_m]. change (2 ^ 52) with (Z.pos (2 ^ 52)).
    destruct (Z.leb_spec (0 + Z.pos p + 1) (emax - prec)) as [_|Hbad];
      [|unfold emax, prec in Hbad; lia].
    apply bounded_53; simpl; lia.
  - rewrite (Zdigits2_eq m1 53) by (simpl; lia).
    replace (fexp prec emax (53 + (0 + Z.pos p)) - (0 + Z.pos p)) with 0
      by (unfold fexp, emin, prec, emax; lia).
    cbn [shr shr_m].
    destruct m1 as [|q|q] eqn:Eq1; try lia.
    destruct (Z.leb_spec (0 + Z.pos p) (emax - prec)) as [_|Hbad];
      [|unfold emax, prec in Hbad; lia].
    apply bounded_53; lia.
Qed.

(** The literal of an integer of magnitude at most the largest Number
    plus one is a Number. *)
Lemma of_Z_valid (z : Z) :
  Z.abs z <= top + 1 -> valid_binary prec emax (of_Z z) = true.
Proof.
  intros Hz.
  destruct (Z.lt_ge_cases (Z.abs z) (2 ^ 53)) as [Hsmall|Hbig].
  - assert (Hround : forall s m, Z.pos m < 2 ^ 53 ->
              valid_binary prec emax (binary_round prec emax s m 0) = true).
    { intros s m Hm.
      pose proof (Binary64.digits_le_prec m Hm) as Hd.
      pose proof (digits_bounds m) as [Hlo Hhi].
      set (d := Z.pos (digits2_pos m)) in *.
      assert (Hpos : 0 < Z.pos m * 2 ^ (prec - d))
        by (apply Z.mul_pos_pos; [lia | apply Binary64.pow2_pos; lia]).
      destruct (Z.pos m * 2 ^ (prec - d)) as [|M|M] eqn:HM; try lia.
      rewrite (Binary64.binary_round_small s m M 0)
        by (fold d; unfold emax, prec in *; auto; lia).
      fold d. apply bounded_53; [|unfold prec in *; lia].
      rewrite <- HM. unfold prec in *.
      pose proof (Binary64.pow2_pos (53 - d) ltac:(lia)) as Hp.
      split.
      - replace 52 with ((d - 1) + (53 - d)) by lia.
        rewrite Z.pow_add_r by lia. nia.
      - replace 53 with (d + (53 - d)) at 2 by lia.
        rewrite Z.pow_add_r by lia. nia. }
    destruct z as [|m|m]; [reflexivity | |]; apply Hround; simpl in *; lia.
  - destruct (Z.lt_ge_cases (Z.abs z) top) as [Hlt|Hge].
    + destruct z as [|m|m]; [reflexivity | |];
        apply binary_round_valid; simpl in *; lia.
    + assert (Hc : z = top \/ z = top + 1 \/ z = - top \/ z = - (top + 1)) by lia.
      destruct Hc as [-> | [-> | [-> | ->]]]; vm_compute; reflexivity.
Qed.

(** Adding a Number that holds 1, 0 or -1 to an integer Number gives an
    integer Number. *)
Lemma integerNumber_add_unit (x y : number) (b : Z) :
  integerNumber x = true -> integerNumber y = true ->
  to_Z y = Some b -> Z.abs b <= 1 ->
  integerNumber (add x y) = true.
Proof.
  unfold integerNumber. intros Hx Hy Hb Hb1.
  apply andb_true_iff in Hx as [Hxv Hxi]. apply andb_true_iff in Hy as [Hyv Hyi].
  apply andb_true_iff. split; [|apply (Binary64.isInteger_add_unit x y b); auto].
  destruct (proj1 (Binary64.isInteger_to_Z x) Hxi) as [a Ha].
  pose proof (Binary64.valid_to_Z_bound x a Hxv Ha) as Hbound.
  destruct x as [sx|sx| |sx mx ex]; try discriminate;
    destruct y as [sy|sy| |sy my ey]; try discriminate.
  - destruct sx, sy; reflexivity.
  - exact Hyv.
  - exact Hxv.
  - rewrite (Binary64.add_finite_of_Z _ _ _ _ _ _ a b Ha Hb).
    apply of_Z_valid. lia.
Qed.

Lemma integerNumber_reducer (state : CounterState) (action : Action) :
  integerNumber (value state) = true ->
  type action <> "Counter/incrementbyfive" ->
  integerNumber (value (CounterSlice.reducer state action)) = true.
Proof.
  intros Hint Hty. rewrite CounterFacts.reducer_cases.
  destruct (String.eqb (type action) "Counter/increment").
  { apply (integerNumber_add_unit _ _ 1); auto; reflexivity. }
  destruct (String.eqb (type action) "Counter/decrement").
  { unfold CounterSlice.decrement. cbn [value]. rewrite Binary64.sub_add_opp.
    apply (integerNumber_add_unit _ _ (-1)); auto; reflexivity. }
  destruct (String.eqb_spec (type action) "Counter/incrementbyfive"); [congruence|].
  exact Hint.
Qed.

End Canonical.

(** X8.  Increment and decrement never spoil the counter: from a state
    whose value is an integer Number, any series of actions without
    [incrementbyfive], however long, ends in a state whose value is an
    integer Number again, never [NaN], an infinity or a fraction. *)
Theorem integer_is_kept (actions : list Action) (state : CounterState) :
  integerNumber (value state) = true ->
  Forall (fun action => type action <> "Counter/incrementbyfive") actions ->
  integerNumber (value (reduce_all actions state)) = true.
Proof.
  unfold reduce_all. intros Hint Hall. revert state Hint.
  induction Hall as [|action actions Hty _ IH]; intros state Hint; simpl.
  - exact Hint.
  - apply IH, Canonical.integerNumber_reducer; assumption.
Qed.

Lemma integer_is_kept_witness :
  integerNumber
    (value (reduce_all
              [ CounterSlice.actions.increment; CounterSlice.actions.increment;
                CounterSlice.actions.decrement ]
              {| value := JS.MAX_VALUE |})) = true.
Proof.
  apply (integer_is_kept _ {| value := JS.MAX_VALUE |}).
  - vm_compute. reflexivity.
  - repeat constructor; discriminate.
Defined.

(** ** Where the counter stops counting *)

Module Saturation.
Import JS.

Local Abbreviation exact m := {| shr_m := m; shr_r := false; shr_s := false |}.

Lemma shr_1_odd (K : Z) (r s : bool) :
  0 <= K ->
  shr_1 {| shr_m := 2 * K + 1; shr_r := r; shr_s := s |}
  = {| shr_m := K; shr_r := true; shr_s := r || s |}.
Proof. intros H. destruct K as [|k|k]; try lia; reflexivity. Qed.

Lemma shr_1_even (K : Z) (r s : bool) :
  0 <= K ->
  shr_1 {| shr_m := 2 * K; shr_r := r; shr_s := s |}
  = {| shr_m := K; shr_r := false; shr_s := r || s |}.
Proof. intros H. destruct K as [|k|k]; try lia; reflexivity. Qed.

Lemma pow2_succ (n : nat) : 2 ^ Z.of_nat (S n) = 2 * 2 ^ Z.of_nat n.
Proof. rewrite Nat2Z.inj_succ, Z.pow_succ_r by lia. reflexivity. Qed.

(** Zeros shifted out after a one: the sticky bit stays. *)
Lemma iter_zeros (n : nat) (K : Z) :
  0 <= K ->
  Nat.iter n shr_1 {| shr_m := K * 2 ^ Z.of_nat n; shr_r := false; shr_s := true |}
  = {| shr_m := K; shr_r := false; shr_s := true |}.
Proof.
  intros HK. revert K HK. induction n as [|n IH]; intros K HK.
  - simpl. rewrite Z.mul_1_r. reflexivity.
  - rewrite Nat.iter_succ_r, pow2_succ.
    replace (K * (2 * 2 ^ Z.of_nat n)) with (2 * (K * 2 ^ Z.of_nat n)) by lia.
    pose proof (Binary64.pow2_pos (Z.of_nat n) ltac:(lia)).
    rewrite shr_1_even by nia. apply IH, HK.
Qed.

(** Ones shifted out: round and sticky bits both set. *)
Lemma iter_ones (n : nat) (K : Z) :
  0 <= K ->
  Nat.iter n shr_1
    {| shr_m := K * 2 ^ Z.of_nat n + 2 ^ Z.of_nat n - 1; shr_r := true; shr_s := true |}
  = {| shr_m := K; shr_r := true; shr_s := true |}.
Proof.
  intros HK. revert K HK. induction n as [|n IH]; intros K HK.
  - simpl. f_equal. lia.
  - rewrite Nat.iter_succ_r, pow2_succ.
    replace (K * (2 * 2 ^ Z.of_nat n) + 2 * 2 ^ Z.of_nat n - 1)
      with (2 * (K * 2 ^ Z.of_nat n + 2 ^ Z.of_nat n - 1) + 1) by lia.
    pose proof (Binary64.pow2_pos (Z.of_nat n) ltac:(lia)).
    rewrite shr_1_odd by nia. apply IH, HK.
Qed.

(** One above a multiple of [2^n], [n >= 2]: below the half-way point. *)
Lemma iter_plus_one (j : nat) (K : Z) :
  0 <= K ->
  Nat.iter (S (S j)) shr_1 (exact (K * 2 ^ Z.of_nat (S (S j)) + 1))
  = {| shr_m := K; shr_r := false; shr_s := true |}.
Proof.
  intros HK. rewrite !Nat.iter_succ_r, !pow2_succ.
  pose proof (Binary64.pow2_pos (Z.of_nat j) ltac:(lia)).
  replace (K * (2 * (2 * 2 ^ Z.of_nat j)) + 1)
    with (2 * (2 * (K * 2 ^ Z.of_nat j)) + 1) by lia.
  rewrite shr_1_odd by nia. rewrite shr_1_even by nia.
  apply iter_zeros, HK.
Qed.

(** One below a multiple of [2^n]: at the half-way point for [n = 1],
    above it for [n >= 2]. *)
Lemma iter_minus_one (j : nat) (K : Z) :
  0 <= K ->
  Nat.iter (S j) shr_1
    (exact (K * 2 ^ Z.of_nat (S j) + 2 ^ Z.of_nat (S j) - 1))
  = {| shr_m := K; shr_r := true; shr_s := match j with O => false | S _ => true end |}.
Proof.
  intros HK. rewrite Nat.iter_succ_r, pow2_succ.
  pose proof (Binary64.pow2_pos (Z.of_nat j) ltac:(lia)).
  replace (K * (2 * 2 ^ Z.of_nat j) + 2 * 2 ^ Z.of_nat j - 1)
    with (2 * (K * 2 ^ Z.of_nat j + 2 ^ Z.of_nat j - 1) + 1) by lia.
  rewrite shr_1_odd by nia. cbn [orb].
  destruct j as [|j].
  - simpl. f_equal. lia.
  - rewrite Nat.iter_succ_r, pow2_succ.
    pose proof (Binary64.pow2_pos (Z.of_nat j) ltac:(lia)).
    replace (K * (2 * 2 ^ Z.of_nat j) + 2 * 2 ^ Z.of_nat j - 1)
      with (2 * (K * 2 ^ Z.of_nat j + 2 ^ Z.of_nat j - 1) + 1) by lia.
    rewrite shr_1_odd by nia. cbn [orb]. apply iter_ones, HK.
Qed.

Lemma shr_iter (r : shr_record) (e : Z) (p : positive) :
  shr r e (Z.pos p) = (Nat.iter (Pos.to_nat p) shr_1 r, e + Z.pos p).
Proof.
  unfold shr. rewrite Binary64.iter_pos_iter, Pos2Nat.inj_iter. reflexivity.
Qed.

(** The last step of [binary_round]: a mantissa of 53 bits is kept. *)
Lemma finish_53 (s : bool) (M : positive) (e : Z) :
  2 ^ 52 <= Z.pos M < 2 ^ 53 -> 0 <= e <= 971 ->
  (let '(mrs'', e'') := shr_fexp prec emax (Z.pos M) e loc_Exact in
   match shr_m mrs'' with
   | 0 => S754_zero s
   | Z.pos n => if e'' <=? emax - prec then S754_finite s n e'' else S754_infinity s
   | Z.neg _ => S754_nan
   end) = S754_finite s M e.
Proof.
  intros HM He. unfold shr_fexp.
  rewrite (Canonical.Zdigits2_eq (Z.pos M) 53) by (simpl; lia).
  replace (fexp prec emax (53 + e) - e) with 0 by (unfold fexp, emin, prec, emax; lia).
  cbn [shr shr_record_of_loc shr_m].
  destruct (Z.leb_spec e (emax - prec)) as [_|Hbad]; [reflexivity|].
  unfold emax, prec in Hbad. lia.
Qed.

(** The last step after a carry: [2^53] becomes [2^52] one binade up. *)
Lemma finish_carry (s : bool) (e : Z) :
  0 <= e <= 970 ->
  (let '(mrs'', e'') := shr_fexp prec emax (2 ^ 53) e loc_Exact in
   match shr_m mrs'' with
   | 0 => S754_zero s
   | Z.pos n => if e'' <=? emax - prec then S754_finite s n e'' else S754_infinity s
   | Z.neg _ => S754_nan
   end) = S754_finite s (2 ^ 52) (e + 1).
Proof.
  intros He. unfold shr_fexp.
  rewrite (Canonical.Zdigits2_eq (2 ^ 53) 54) by (simpl; lia).
  replace (fexp prec emax (54 + e) - e) with 1 by (unfold fexp, emin, prec, emax; lia).
  cbn [shr shr_record_of_loc iter_pos].
  change (shr_1 (exact (2 ^ 53))) with (exact (2 ^ 52)). cbn [shr_m].
  change (2 ^ 52) with (Z.pos (2 ^ 52)). cbv iota.
  destruct (Z.leb_spec (e + 1) (emax - prec)) as [_|Hbad]; [reflexivity|].
  unfold emax, prec in Hbad. lia.
Qed.

(** Rounding one above a Number of magnitude at least [2^54] gives the
    Number back. *)
Lemma binary_round_plus_one (s : bool) (M q : positive) (e : Z) :
  2 ^ 52 <= Z.pos M < 2 ^ 53 -> 2 <= e <= 971 ->
  Z.pos q = Z.pos M * 2 ^ e + 1 ->
  binary_round prec emax s q 0 = S754_finite s M e.
Proof.
  intros HM He Hq.
  pose proof (Binary64.pow2_pos e ltac:(lia)) as Hpe.
  assert (H4 : 4 <= 2 ^ e)
    by (change 4 with (2 ^ 2); apply Z.pow_le_mono_r; lia).
  assert (Hdig : Z.pos (digits2_pos q) = 53 + e).
  { change (Z.pos (digits2_pos q)) with (Zdigits2 (Z.pos q)).
    apply Canonical.Zdigits2_eq; [|lia].
    replace (53 + e - 1) with (52 + e) by lia.
    rewrite !Z.pow_add_r by lia. nia. }
  rewrite Binary64.binary_round_aligned, Binary64.aligned_spec. cbv zeta.
  rewrite Hdig.
  replace (fexp prec emax (53 + e + 0)) with e by (unfold fexp, emin, prec, emax; lia).
  destruct (Z.ltb_spec e 0) as [|_]; [lia|]. rewrite Z.sub_0_r.
  destruct e as [|p|p]; try lia.
  rewrite shr_iter, Hq.
  pose proof (positive_nat_Z p) as Hn.
  destruct (Pos.to_nat p) as [|[|j]] eqn:En; try lia.
  rewrite <- Hn, iter_plus_one by lia.
  cbn [shr_m loc_of_shr_record round_nearest_even].
  rewrite Hn. apply finish_53; lia.
Qed.

(** Rounding one below a Number of magnitude at least [2^54] gives the
    Number back. *)
Lemma binary_round_minus_one (s : bool) (M q : positive) (e : Z) :
  2 ^ 52 <= Z.pos M < 2 ^ 53 -> 2 <= e <= 971 ->
  Z.pos q = Z.pos M * 2 ^ e - 1 ->
  binary_round prec emax s q 0 = S754_finite s M e.
Proof.
  intros HM He Hq.
  pose proof (Binary64.pow2_pos e ltac:(lia)) as Hpe.
  assert (H4 : 4 <= 2 ^ e)
    by (change 4 with (2 ^ 2); apply Z.pow_le_mono_r; lia).
  rewrite Binary64.binary_round_aligned, Binary64.aligned_spec. cbv zeta.
  destruct (Z.eq_dec (Z.pos M) (2 ^ 52)) as [Emin|Hbig].
  - (* the binade below: 52 + e digits, all ones *)
    assert (Hq' : Z.pos q = 2 ^ (52 + e) - 1)
      by (rewrite Hq, Emin, <- Z.pow_add_r by lia; reflexivity).
    assert (Hdig : Z.pos (digits2_pos q) = 52 + e).
    { change (Z.pos (digits2_pos q)) with (Zdigits2 (Z.pos q)).
      apply Canonical.Zdigits2_eq; [|lia]. rewrite Hq'.
      pose proof (Binary64.pow2_pos (52 + e - 1) ltac:(lia)).
      assert (E2 : 2 ^ (52 + e) = 2 * 2 ^ (52 + e - 1))
        by (rewrite <- Z.pow_succ_r by lia; f_equal; lia).
      rewrite E2. lia. }
    rewrite Hdig.
    replace (fexp prec emax (52 + e + 0)) with (e - 1)
      by (unfold fexp, emin, prec, emax; lia).
    destruct (Z.ltb_spec (e - 1) 0) as [|_]; [lia|]. rewrite Z.sub_0_r.
    destruct (e - 1) as [|p|p] eqn:Ep; try lia.
    rewrite shr_iter.
    pose proof (positive_nat_Z p) as Hn.
    destruct (Pos.to_nat p) as [|j] eqn:En; try lia.
    assert (Hsplit : Z.pos q
              = (2 ^ 53 - 1) * 2 ^ Z.of_nat (S j) + 2 ^ Z.of_nat (S j) - 1).
    { rewrite Hq', Hn. replace (52 + e) with (53 + Z.pos p) by lia.
      rewrite Z.pow_add_r by lia. lia. }
    rewrite Hsplit, iter_minus_one by lia.
    assert (Hround :
      round_nearest_even (2 ^ 53 - 1)
        (loc_of_shr_record
           {| shr_m := 2 ^ 53 - 1; shr_r := true;
              shr_s := match j with O => false | S _ => true end |}) = 2 ^ 53)
      by (destruct j; reflexivity).
    cbn [shr_m]. rewrite Hround.
    replace M with (2 ^ 52)%positive by lia.
    replace (S754_finite s (2 ^ 52) e)
      with (S754_finite s (2 ^ 52) (0 + Z.pos p + 1)) by (f_equal; lia).
    apply finish_carry. lia.
  - assert (Hdig : Z.pos (digits2_pos q) = 53 + e).
    { change (Z.pos (digits2_pos q)) with (Zdigits2 (Z.pos q)).
      apply Canonical.Zdigits2_eq; [|lia].
      replace (53 + e - 1) with (52 + e) by lia.
      rewrite !Z.pow_add_r by lia. nia. }
    rewrite Hdig.
    replace (fexp prec emax (53 + e + 0)) with e by (unfold fexp, emin, prec, emax; lia).
    destruct (Z.ltb_spec e 0) as [|_]; [lia|]. rewrite Z.sub_0_r.
    destruct e as [|p|p]; try lia.
    rewrite shr_iter.
    pose proof (positive_nat_Z p) as Hn.
    destruct (Pos.to_nat p) as [|[|j]] eqn:En; try lia.
    assert (Hsplit : Z.pos q
              = (Z.pos M - 1) * 2 ^ Z.of_nat (S (S j)) + 2 ^ Z.of_nat (S (S j)) - 1)
      by (rewrite Hq, Hn; lia).
    rewrite Hsplit, iter_minus_one by lia.
    cbn [shr_m loc_of_shr_record round_nearest_even].
    replace (Z.pos M - 1 + 1) with (Z.pos M) by lia.
    apply finish_53; lia.
Qed.

(** A Number holding an integer of magnitude at least [2^54]: its
    mantissa has 53 bits and its exponent is at least 2. *)
Lemma large_shape (x : number) (v : Z) :
  valid_binary prec emax x = true -> to_Z x = Some v -> 2 ^ 54 <= Z.abs v ->
  exists s M e,
    x = S754_finite s M e /\ 2 ^ 52 <= Z.pos M < 2 ^ 53 /\ 2 <= e <= 971
    /\ v = cond_Zopp s (Z.pos M * 2 ^ e).
Proof.
  destruct x as [s|s| |s m e]; try discriminate.
  - intros _ [= <-]. simpl. lia.
  - unfold valid_binary, bounded, canonical_mantissa. intros Hv Ha Hbig.
    apply andb_true_iff in Hv as [Hc He].
    apply Z.eqb_eq in Hc. apply Z.leb_le in He.
    pose proof (Canonical.digits_bounds m) as [Hlo Hhi].
    set (d := Z.pos (digits2_pos m)) in *.
    assert (Hd : d <= 53) by (unfold fexp, emin, prec, emax in *; lia).
    assert (Hm : Z.pos m < 2 ^ 53).
    { eapply Z.lt_le_trans; [exact Hhi|]. apply Z.pow_le_mono_r; lia. }
    assert (Habs : forall b, Z.abs (cond_Zopp s b) = Z.abs b) by (destruct s; simpl; lia).
    unfold to_Z in Ha. destruct (Z.leb_spec 0 e) as [H0|H0].
    + injection Ha as <-. rewrite Habs in Hbig.
      pose proof (Binary64.pow2_pos e H0) as Hpe.
      assert (He2 : 2 <= e).
      { destruct (Z.le_gt_cases 2 e) as [|Hsmall]; [assumption|].
        assert (2 ^ e <= 2 ^ 1) by (apply Z.pow_le_mono_r; lia).
        change (2 ^ 1) with 2 in *. nia. }
      assert (d = 53) by (unfold fexp, emin, prec, emax in *; lia).
      exists s, m, e. repeat split; auto; unfold emax, prec in *; try lia.
      replace 52 with (d - 1) by lia. exact Hlo.
    + destruct (Z.pos m mod 2 ^ (- e) =? 0); [|discriminate].
      injection Ha as <-. rewrite Habs in Hbig.
      pose proof (Binary64.pow2_pos (- e) ltac:(lia)) as Hp.
      assert (0 <= Z.pos m / 2 ^ (- e) <= Z.pos m).
      { split; [apply Z.div_pos; lia|].
        apply Z.div_le_upper_bound; [lia|]. nia. }
      lia.
Qed.

Lemma add_one_large (x : number) (v : Z) :
  valid_binary prec emax x = true -> to_Z x = Some v -> 2 ^ 54 <= Z.abs v ->
  add x (of_Z 1) = x /\ sub x (of_Z 1) = x.
Proof.
  intros Hval Hv Hbig.
  destruct (large_shape x v Hval Hv Hbig) as (s & M & e & -> & HM & He & Ev).
  pose proof (Binary64.pow2_pos e ltac:(lia)) as Hpe.
  assert (Hprod : 0 < Z.pos M * 2 ^ e) by nia.
  assert (H4 : 4 <= 2 ^ e)
    by (change 4 with (2 ^ 2); apply Z.pow_le_mono_r; lia).
  rewrite Binary64.sub_add_opp.
  change (SFopp (of_Z 1)) with (S754_finite true 4503599627370496 (-52)).
  change (of_Z 1) with (S754_finite false 4503599627370496 (-52)).
  rewrite (Binary64.add_finite_of_Z s false M 4503599627370496 e (-52) v 1 Hv eq_refl).
  rewrite (Binary64.add_finite_of_Z s true M 4503599627370496 e (-52) v (-1) Hv eq_refl).
  unfold of_Z. subst v. destruct s; cbn [cond_Zopp].
  - split.
    + destruct (- (Z.pos M * 2 ^ e) + 1) as [|q|q] eqn:Eq; try lia.
      cbn [binary_normalize]. apply (binary_round_minus_one true M q e); auto; lia.
    + destruct (- (Z.pos M * 2 ^ e) + -1) as [|q|q] eqn:Eq; try lia.
      cbn [binary_normalize]. apply (binary_round_plus_one true M q e); auto; lia.
  - split.
    + destruct (Z.pos M * 2 ^ e + 1) as [|q|q] eqn:Eq; try lia.
      cbn [binary_normalize]. apply (binary_round_plus_one false M q e); auto; lia.
    + destruct (Z.pos M * 2 ^ e + -1) as [|q|q] eqn:Eq; try lia.
      cbn [binary_normalize]. apply (binary_round_minus_one false M q e); auto; lia.
Qed.

Lemma reducer_large (state : CounterState) (action : Action) (v : Z) :
  valid_binary prec emax (value state) = true ->
  to_Z (value state) = Some v -> 2 ^ 54 <= Z.abs v ->
  type action <> "Counter/incrementbyfive" ->
  CounterSlice.reducer state action = state.
Proof.
  intros Hval Hv Hbig Hty. destruct state as [x]. cbn [value] in *.
  destruct (add_one_large x v Hval Hv Hbig) as [Hadd Hsub].
  rewrite CounterFacts.reducer_cases.
  destruct (String.eqb (type action) "Counter/increment").
  { unfold CounterSlice.increment. cbn [value]. rewrite Hadd. reflexivity. }
  destruct (String.eqb (type action) "Counter/decrement").
  { unfold CounterSlice.decrement. cbn [value]. rewrite Hsub. reflexivity. }
  destruct (String.eqb_spec (type action) "Counter/incrementbyfive"); [congruence|].
  reflexivity.
Qed.

End Saturation.

(** X9.  The counter stops counting at [2^54]: on a state whose value is a
    Number holding an integer of magnitude at least [2^54], [increment]
    and [decrement] return the state unchanged, and so does any series of
    actions without [incrementbyfive]. *)
Theorem counter_is_stuck_from_two_pow_54
    (actions : list Action) (state : CounterState) (v : Z) :
  valid_binary JS.prec JS.emax (value state) = true ->
  JS.to_Z (value state) = Some v -> 2 ^ 54 <= Z.abs v ->
  Forall (fun action => type action <> "Counter/incrementbyfive") actions ->
  reduce_all actions state = state.
Proof.
  unfold reduce_all. intros Hval Hv Hbig Hall.
  induction Hall as [|action actions Hty _ IH]; simpl; [reflexivity|].
  rewrite (Saturation.reducer_large state action v) by assumption. exact IH.
Qed.

Lemma counter_is_stuck_from_two_pow_54_witness :
  reduce_all
    [ CounterSlice.actions.increment; CounterSlice.actions.increment;
      CounterSlice.actions.decrement ]
    {| value := JS.of_Z (- 2 ^ 54) |}
  = {| value := JS.of_Z (- 2 ^ 54) |}.
Proof.
  apply (counter_is_stuck_from_two_pow_54 _ {| value := JS.of_Z (- 2 ^ 54) |} (- 2 ^ 54)).
  - reflexivity.
  - reflexivity.
  - simpl. lia.
  - repeat constructor; discriminate.
Defined.

(** Just below, the counter still moves: [2^54 - 2] is a Number, and
    [increment] takes it to [2^54]. *)
Example counter_moves_below_two_pow_54 :
  JS.to_Z (JS.of_Z (2 ^ 54 - 2)) = Some (2 ^ 54 - 2)
  /\ JS.to_Z (value (CounterSlice.increment {| value := JS.of_Z (2 ^ 54 - 2) |}))
     = Some (2 ^ 54).
Proof. split; reflexivity. Qed.

(** ** A bad input in the component *)

Module InputFacts.
Import JS App.



End InputFacts.

